(** * Tic-tac-toe (learn-react): the game-result evaluator and the
      move-history state of the [Game] component

    A shallow embedding of the logic of the three versions of the component:
    - version 1 (src/app/game.tsx, first part): [V1.calculateWinnerLine] and
      [V1.handleClick];
    - versions 2 and 3 (src/app/game.tsx, second part, and the latest file):
      [calculateGameResult], [handleClick], [handlePlay], [jumpTo] and, in
      version 3 only, [moveLocations].

    JavaScript values are modelled as far as the component uses them: a cell
    of [squares] is [null] or a string, a read outside an array is
    [undefined], and an array may have holes. React state is passed
    explicitly as a record. *)

From stdpp Require Import base list strings pretty.
From Stdlib Require Import ZArith Lia.


(** ** JavaScript values and arrays *)

Inductive value : Type :=
  | VUndefined
  | VNull
  | VStr (s : string).

#[global] Instance value_eq_dec : EqDecision value.
Proof. solve_decision. Defined.

(** [Boolean(v)], the truthiness used by [&&], [||], [? :] and
    [every(Boolean)]: [undefined], [null] and the empty string are falsy. *)
Definition truthy (v : value) : bool :=
  match v with
  | VUndefined => false
  | VNull => false
  | VStr s => negb (String.eqb s EmptyString)
  end.

(** [v === w] on these values. *)
Definition strict_eq (v w : value) : bool := bool_decide (v = w).

(** An array: a list of slots, [None] being a hole (an index below [length]
    that was never written). *)
Abbreviation array := (list (option value)).

(** [a[i]]: a hole or an index out of range reads as [undefined]. *)
Definition get (a : array) (i : nat) : value :=
  match a !! i with
  | Some (Some v) => v
  | Some None => VUndefined
  | None => VUndefined
  end.

(** [a.every(p)]: holes are skipped. *)
Definition every (p : value → bool) (a : array) : bool :=
  forallb (λ slot, match slot with Some v => p v | None => true end) a.

(** [a.slice()]: a shallow copy; with values instead of references, the
    array itself. *)
Definition slice (a : array) : array := a.

(** [a[i] = v]: in range the slot is overwritten, out of range the array
    grows to length [i + 1] and the slots in between are holes. *)
Definition set (a : array) (i : nat) (v : value) : array :=
  if decide (i < length a) then <[i := Some v]> a
  else a ++ replicate (i - length a) None ++ [Some v].

(** [Array(n).fill(v)] *)
Definition Array_fill (n : nat) (v : value) : array := replicate n (Some v).

(** ** The game result (versions 2 and 3) *)

Inductive GameStatus : Type :=
  | Draw
  | HasWinner
  | NotFinished.

#[global] Instance GameStatus_eq_dec : EqDecision GameStatus.
Proof. solve_decision. Defined.

Definition line : Type := (nat * nat * nat)%type.

Record GameResult : Type := mkGameResult {
  status : GameStatus;
  winner : option value;
  winnerLine : option line
}.

Definition lines : list line :=
  [ (0, 1, 2);
    (3, 4, 5);
    (6, 7, 8);
    (0, 3, 6);
    (1, 4, 7);
    (2, 5, 8);
    (0, 4, 8);
    (2, 4, 6) ].

(** The test of the loop body:
    [squares[a] && squares[a] === squares[b] && squares[a] === squares[c]]. *)
Definition line_matches (squares : array) (l : line) : bool :=
  let '(a, b, c) := l in
  truthy (get squares a)
  && strict_eq (get squares a) (get squares b)
  && strict_eq (get squares a) (get squares c).

(** The [for] loop of [calculateGameResult] over the lines not yet visited:
    [Some r] when the body returns [r], [None] when the loop runs out. *)
Fixpoint scan_lines (rest : list line) (squares : array) : option GameResult :=
  match rest with
  | [] => None
  | l :: rest' =>
      if line_matches squares l
      then Some {| status := HasWinner;
                   winner := Some (get squares (l.1.1));
                   winnerLine := Some l |}
      else scan_lines rest' squares
  end.

Definition calculateGameResult (squares : array) : GameResult :=
  match scan_lines lines squares with
  | Some gameResult => gameResult
  | None =>
      {| status := if every truthy squares then Draw else NotFinished;
         winner := None;
         winnerLine := None |}
  end.

(** ** The board component (versions 2 and 3) *)

Definition nRows : nat := 3.
Definition nCols : nat := 3.

(** The indices [row * nCols + col] for which the board renders a square,
    and so the only arguments [handleClick] is ever called with. *)
Definition squareIndices : list nat :=
  flat_map (λ row, map (λ col, row * nCols + col) (seq 0 nCols)) (seq 0 nRows).

(** [handleClick(i)] inside [Board({xIsNext, squares, onPlay})]: [None] when
    it returns without calling [onPlay], [Some nextSquares] when it calls
    [onPlay(nextSquares)]. *)
Definition handleClick (xIsNext : bool) (squares : array) (i : nat)
  : option array :=
  let r := calculateGameResult squares in
  if truthy (get squares i) || negb (bool_decide (status r = NotFinished))
  then None
  else
    let nextSquares := slice squares in
    let nextSquares := set nextSquares i (VStr (if xIsNext then "X" else "O")%string) in
    Some nextSquares.

(** ** The game component: history and time travel *)

(** What an evaluation ends in: a value, or a thrown exception. *)
Inductive error : Type :=
  | TypeError      (* a property read on [undefined] *)
  | InvalidMove.   (* [new Error('Invalid move')] *)

Inductive outcome (A : Type) : Type :=
  | Returned (a : A)
  | Thrown (e : error).
Arguments Returned {A} a.
Arguments Thrown {A} e.

(** The state of [Game]: the three [useState] cells. [currentMove] is a
    number that [jumpTo] stores unchecked, so it is an integer here, not an
    index. *)
Record GameState : Type := mkGameState {
  history : list array;
  currentMove : Z;
  sortAscend : bool
}.

(** [useState([Array(9).fill(null)])], [useState(0)], [useState(true)] *)
Definition initialState : GameState :=
  {| history := [Array_fill 9 VNull]; currentMove := 0; sortAscend := true |}.

(** [h[m]] for an integer [m]: [None] is [undefined]. *)
Definition index {A : Type} (h : list A) (m : Z) : option A :=
  if decide (0 ≤ m)%Z then h !! Z.to_nat m else None.

(** [h.slice(0, e)]: a negative [e] counts from the end, and the bound is
    clamped to [0 .. h.length]. *)
Definition slice_to {A : Type} (h : list A) (e : Z) : list A :=
  let len := Z.of_nat (length h) in
  let k := if (e <? 0)%Z then Z.max (len + e) 0 else Z.min e len in
  take (Z.to_nat k) h.

(** [currentMove % 2 === 0]; [%] is the remainder of the truncated
    division. *)
Definition xIsNext (s : GameState) : bool := (Z.rem (currentMove s) 2 =? 0)%Z.

Definition currentSquares (s : GameState) : option array :=
  index (history s) (currentMove s).

Definition handlePlay (s : GameState) (nextSquares : array) : GameState :=
  let nextHistory := slice_to (history s) (currentMove s + 1) ++ [nextSquares] in
  {| history := nextHistory;
     currentMove := Z.of_nat (length nextHistory) - 1;
     sortAscend := sortAscend s |}.

Definition jumpTo (s : GameState) (nextMove : Z) : GameState :=
  {| history := history s;
     currentMove := nextMove;
     sortAscend := sortAscend s |}.

Definition toggleSort (s : GameState) : GameState :=
  {| history := history s;
     currentMove := currentMove s;
     sortAscend := negb (sortAscend s) |}.

(** A click on square [i] of the board that [Game] renders from [s]:
    [Board] gets [xIsNext], [squares = currentSquares] and
    [onPlay = handlePlay]. When [currentSquares] is [undefined] the board
    does not render ([calculateGameResult] reads [squares[a]] on it). *)
Definition play (s : GameState) (i : nat) : outcome GameState :=
  match currentSquares s with
  | None => Thrown TypeError
  | Some squares =>
      match handleClick (xIsNext s) squares i with
      | None => Returned s
      | Some nextSquares => Returned (handlePlay s nextSquares)
      end
  end.

(** A sequence of clicks, each on the board rendered after the one before
    it. *)
Fixpoint clicks (s : GameState) (squares : list nat) : outcome GameState :=
  match squares with
  | [] => Returned s
  | i :: rest =>
      match play s i with
      | Returned s' => clicks s' rest
      | Thrown e => Thrown e
      end
  end.

(** ** Move locations (version 3) *)

(** The inner [for] loop of [moveLocations]: the first [i] below
    [squares.length] with [squares[i] !== prevSquares[i]]. *)
Definition first_difference (squares prevSquares : array) : option nat :=
  find (λ i, negb (strict_eq (get squares i) (get prevSquares i)))
       (seq 0 (length squares)).

(** The callback of [history.map((squares, move) => ...)]; [Returned None]
    is [null]. When [history[move - 1]] is [undefined] the first
    [prevSquares[i]] throws, unless [squares] is empty and the loop body
    never runs. *)
Definition moveLocation (history : list array) (squares : array) (move : nat)
  : outcome (option (nat * nat)) :=
  if decide (move = 0) then Returned None
  else
    match history !! (move - 1) with
    | None =>
        match squares with
        | [] => Thrown InvalidMove
        | _ :: _ => Thrown TypeError
        end
    | Some prevSquares =>
        match first_difference squares prevSquares with
        | Some i => Returned (Some (i / 3, i mod 3))
        | None => Thrown InvalidMove
        end
    end.

(** [map] with a callback that may throw: the first exception, in index
    order, ends it. *)
Fixpoint collect {A : Type} (l : list (outcome A)) : outcome (list A) :=
  match l with
  | [] => Returned []
  | Thrown e :: _ => Thrown e
  | Returned a :: l' =>
      match collect l' with
      | Returned r => Returned (a :: r)
      | Thrown e => Thrown e
      end
  end.

Definition moveLocations (history : list array)
  : outcome (list (option (nat * nat))) :=
  collect (imap (λ move squares, moveLocation history squares move) history).

(** ** Version 1 *)

Module V1.

(** The [for] loop of [calculateWinnerLine]. *)
Fixpoint scan_lines (rest : list line) (squares : array) : option line :=
  match rest with
  | [] => None
  | l :: rest' =>
      if line_matches squares l then Some l else scan_lines rest' squares
  end.

(** [None] is [null]. *)
Definition calculateWinnerLine (squares : array) : option line :=
  scan_lines lines squares.

(** [winnerLine ? squares[winnerLine[0]] : null] *)
Definition winner (squares : array) : value :=
  match calculateWinnerLine squares with
  | Some winnerLine => get squares (winnerLine.1.1)
  | None => VNull
  end.

Definition handleClick (xIsNext : bool) (squares : array) (i : nat)
  : option array :=
  if truthy (get squares i) || truthy (winner squares)
  then None
  else
    let nextSquares := slice squares in
    let nextSquares :=
      set nextSquares i (VStr (if xIsNext then "X" else "O")%string) in
    Some nextSquares.

(** [Game] is the same as in the later versions but for the board it
    renders. *)
Definition play (s : GameState) (i : nat) : outcome GameState :=
  match currentSquares s with
  | None => Thrown TypeError
  | Some squares =>
      match handleClick (xIsNext s) squares i with
      | None => Returned s
      | Some nextSquares => Returned (handlePlay s nextSquares)
      end
  end.

End V1.

(** ** What the components render *)

(** [`${v}`]: the string a template literal makes of a value. *)
Definition to_string (v : value) : string :=
  match v with
  | VUndefined => "undefined"
  | VNull => "null"
  | VStr s => s
  end.

(** An optional field of [GameResult] that was never set reads as
    [undefined]. *)
Definition field (o : option value) : value := default VUndefined o.

(** The [switch] of [Board] (versions 2 and 3); the [default] case cannot be
    reached with the three statuses. *)
Definition statusInfo (xIsNext : bool) (squares : array) : string :=
  match status (calculateGameResult squares) with
  | HasWinner =>
      "Winner: " +:+ to_string (field (winner (calculateGameResult squares)))
  | Draw => "Draw"
  | NotFinished => "Next player: " +:+ (if xIsNext then "X" else "O")
  end.

(** [Array.isArray(winnerLine) && winnerLine.includes(index)] *)
Definition highlight (squares : array) (index : nat) : bool :=
  match winnerLine (calculateGameResult squares) with
  | Some (a, b, c) => bool_decide (index ∈ [a; b; c])
  | None => false
  end.

(** The props of one [Square]; [onSquareClick] is [handleClick(key)]. *)
Record SquareProps : Type := mkSquareProps {
  square_key : nat;
  square_value : value;
  square_highlight : bool
}.

(** The rows of squares that [Board] returns. *)
Definition board_rows (squares : array) : list (list SquareProps) :=
  map (λ row,
         map (λ col,
                let index := row * nCols + col in
                {| square_key := index;
                   square_value := get squares index;
                   square_highlight := highlight squares index |})
             (seq 0 nCols))
      (seq 0 nRows).

(** One [<li>] of the move list: its key, the text of its button, and the
    move its [onClick] jumps to ([None]: the button has no handler). *)
Record MoveItem : Type := mkMoveItem {
  move_key : nat;
  move_text : string;
  move_onClick : option Z
}.

(** The suffix that version 3 adds when [moveLocations[move]] is truthy. *)
Definition moveLocationSuffix (location : option (nat * nat)) : string :=
  match location with
  | Some (moveRow, moveCol) =>
      " @ (" +:+ pretty (moveRow + 1) +:+ ", " +:+ pretty (moveCol + 1) +:+ ")"
  | None => EmptyString
  end.

(** The callback of [history.map((squares, move) => ...)] that builds the
    move list of version 3. *)
Definition moveItem (s : GameState) (locations : list (option (nat * nat)))
    (move : nat) : MoveItem :=
  let currentMoveLabel := "You are at move #" +:+ pretty move in
  let goToLabel :=
    if decide (0 < move) then "Go to move #" +:+ pretty move
    else "Go to game start" in
  let suffix := moveLocationSuffix (mjoin (locations !! move)) in
  if decide (currentMove s = Z.of_nat move)
  then {| move_key := move;
          move_text := currentMoveLabel +:+ suffix;
          move_onClick := None |}
  else {| move_key := move;
          move_text := goToLabel +:+ suffix;
          move_onClick := Some (Z.of_nat move) |}.

(** [moves], after [moves = sortAscend ? moves : moves.reverse()]. *)
Definition moves (s : GameState) (locations : list (option (nat * nat)))
  : list MoveItem :=
  let moves := imap (λ move _, moveItem s locations move) (history s) in
  if sortAscend s then moves else reverse moves.

(** What [Game] of version 3 puts on the screen. *)
Record GameView : Type := mkGameView {
  view_statusInfo : string;
  view_rows : list (list SquareProps);
  view_sortLabel : string;
  view_moves : list MoveItem
}.

(** Rendering [Game]: the body of [Game] computes [moveLocations] and
    [moves], then [Board] renders with [squares = currentSquares]. *)
Definition render (s : GameState) : outcome GameView :=
  match moveLocations (history s) with
  | Thrown e => Thrown e
  | Returned locations =>
      match currentSquares s with
      | None => Thrown TypeError
      | Some squares =>
          Returned
            {| view_statusInfo := statusInfo (xIsNext s) squares;
               view_rows := board_rows squares;
               view_sortLabel :=
                 if sortAscend s then "Sort Descend" else "Sort Ascend";
               view_moves := moves s locations |}
      end
  end.

(** Versions 1 and 2 have no move locations; the status line of version 1
    knows only a winner. *)
Module V1View.

(** [winner ? `Winner: ${winner}` : `Next player: ${xIsNext ? 'X' : 'O'}`] *)
Definition status (xIsNext : bool) (squares : array) : string :=
  if truthy (V1.winner squares)
  then "Winner: " +:+ to_string (V1.winner squares)
  else "Next player: " +:+ (if xIsNext then "X" else "O").

Definition moveItem (s : GameState) (move : nat) : MoveItem :=
  let description :=
    if decide (0 < move) then "Go to move #" +:+ pretty move
    else "Go to game start" in
  if decide (currentMove s = Z.of_nat move)
  then {| move_key := move;
          move_text := "You are at move #" +:+ pretty move;
          move_onClick := None |}
  else {| move_key := move;
          move_text := description;
          move_onClick := Some (Z.of_nat move) |}.

Definition moves (s : GameState) : list MoveItem :=
  let moves := imap (λ move _, moveItem s move) (history s) in
  if sortAscend s then moves else reverse moves.

End V1View.

(** ** The vocabulary of the specification *)

(** A mark is ["X"] or ["O"]; the empty cell is [null]. *)
Definition is_mark (v : value) : Prop := v = VStr "X"%string ∨ v = VStr "O"%string.

Definition is_cell (slot : option value) : Prop :=
  slot = Some VNull ∨ slot = Some (VStr "X"%string) ∨ slot = Some (VStr "O"%string).

(** A board: nine cells, each empty or holding a mark. *)
Definition is_board (squares : array) : Prop :=
  length squares = 9 ∧ Forall is_cell squares.

Definition emptyBoard : array := Array_fill 9 VNull.

#[global] Instance is_cell_dec slot : Decision (is_cell slot).
Proof. unfold is_cell. apply _. Defined.

#[global] Instance is_board_dec squares : Decision (is_board squares).
Proof. unfold is_board. apply _. Defined.

(** A winning line: its three cells hold the same mark. *)
Definition wins (squares : array) (l : line) : Prop :=
  ∃ m, is_mark m ∧
       get squares (l.1.1) = m ∧ get squares (l.1.2) = m ∧ get squares (l.2) = m.

Definition has_winning_line (squares : array) : Prop :=
  ∃ l, l ∈ lines ∧ wins squares l.

(** Every cell of the board holds a mark. *)
Definition all_filled (squares : array) : Prop :=
  ∀ i, i < 9 → is_mark (get squares i).

(** The mark of the player who moves on the board at position [k] of the
    history. *)
Definition mover (k : nat) : value := VStr (if Nat.even k then "X" else "O")%string.

(** [next] is [prev] but for one cell, which was empty and now holds [m]. *)
Definition one_move (m : value) (prev next : array) : Prop :=
  ∃ j, get prev j = VNull ∧ get next j = m ∧
       length next = length prev ∧
       ∀ k, k ≠ j → next !! k = prev !! k.

(** The cells in which two adjacent boards differ, as the loop of
    [moveLocations] compares them. *)
Definition differs_at (squares prevSquares : array) (i : nat) : Prop :=
  i < length squares ∧ get squares i ≠ get prevSquares i.

(** The states the component can get into: clicks on the squares the board
    renders, jumps to a move of the history, and toggling the sort order. *)
Inductive reachable : GameState → Prop :=
  | reachable_initial : reachable initialState
  | reachable_play s i s' :
      reachable s → i ∈ squareIndices → play s i = Returned s' → reachable s'
  | reachable_jumpTo s m :
      reachable s → (0 ≤ m < Z.of_nat (length (history s)))%Z →
      reachable (jumpTo s m)
  | reachable_toggleSort s :
      reachable s → reachable (toggleSort s).

(** The invariants of the data model. *)
Record invariant (s : GameState) : Prop := mkInvariant {
  inv_first : history s !! 0 = Some emptyBoard;
  inv_length : 1 ≤ length (history s);
  inv_steps : ∀ i prev next,
      0 < i → history s !! (i - 1) = Some prev → history s !! i = Some next →
      one_move (mover (i - 1)) prev next;
  inv_current : (0 ≤ currentMove s < Z.of_nat (length (history s)))%Z
}.

(** The invariant that the induction goes through with: the invariants of
    the data model, and every entry of the history is a board. *)
Definition strong_invariant (s : GameState) : Prop :=
  invariant s ∧ Forall is_board (history s).

(** ** Example boards and states *)

Definition cX : option value := Some (VStr "X"%string).
Definition cO : option value := Some (VStr "O"%string).
Definition c_ : option value := Some VNull.

(** X has the top row, after the moves 0, 3, 1, 4, 2. *)
Definition board_top_row : array := [cX; cX; cX; cO; cO; c_; c_; c_; c_].

(** The full board of the moves 0, 1, 2, 3, 5, 4, 6, 8, 7: no line. *)
Definition board_draw : array := [cX; cO; cX; cO; cO; cX; cX; cX; cO].

(** The same game one move earlier: cell 7 is still empty. *)
Definition board_one_left : array := [cX; cO; cX; cO; cO; cX; cX; c_; cO].

(** A history of five boards (moves 0, 4, 1, 7), looked at from move 2. *)
Definition history_of_five : list array :=
  [ emptyBoard;
    [cX; c_; c_; c_; c_; c_; c_; c_; c_];
    [cX; c_; c_; c_; cO; c_; c_; c_; c_];
    [cX; cX; c_; c_; cO; c_; c_; c_; c_];
    [cX; cX; c_; c_; cO; c_; c_; cO; c_] ].

Definition state_of_five : GameState :=
  {| history := history_of_five; currentMove := 2; sortAscend := true |}.

(** The states after the clicks on squares 0 and then 4 of a fresh game. *)
Definition state_after_one : GameState :=
  {| history := [emptyBoard; [cX; c_; c_; c_; c_; c_; c_; c_; c_]];
     currentMove := 1;
     sortAscend := true |}.

Definition state_after_two : GameState :=
  {| history := [ emptyBoard;
                  [cX; c_; c_; c_; c_; c_; c_; c_; c_];
                  [cX; c_; c_; c_; cO; c_; c_; c_; c_] ];
     currentMove := 2;
     sortAscend := true |}.

(** X holds the left column and the main diagonal at once. *)
Definition board_column_and_diagonal : array :=
  [cX; cO; cO; cX; cX; c_; cX; c_; cX].

(** A board that differs from the empty one in two cells, which no
    sequence of clicks puts next to it in a history. *)
Definition board_two_changes : array := [cX; cO; c_; c_; c_; c_; c_; c_; c_].

(** ** Games as sequences of accepted moves *)

(** The histories that accepted clicks build: the empty board, then boards
    that each fill one empty cell of the board before, which was not
    finished, with the mark of the player to move. *)
Inductive legal : list array → Prop :=
  | legal_start : legal [emptyBoard]
  | legal_move h squares i :
      legal h → last h = Some squares →
      i < 9 → get squares i = VNull →
      status (calculateGameResult squares) = NotFinished →
      legal (h ++ [<[i := Some (mover (length h - 1))]> squares]).

(** The number of cells of a board that hold [m]. *)
Definition count_mark (m : value) (squares : array) : nat :=
  length (filter (λ slot, slot = Some m) squares).

(** Swapping the two marks of a board. *)
Definition swap_mark (v : value) : value :=
  match v with
  | VStr s =>
      if String.eqb s "X" then VStr "O"
      else if String.eqb s "O" then VStr "X" else VStr s
  | _ => v
  end.

Definition swap_board (squares : array) : array :=
  (λ slot : option value, swap_mark <$> slot) <$> squares.

(** ** Values, arrays and boards *)

Lemma is_mark_truthy v : is_mark v → truthy v = true.
Proof. by intros [-> | ->]. Qed.

Lemma is_mark_not_null v : is_mark v → v ≠ VNull.
Proof. by intros [-> | ->]. Qed.

Lemma strict_eq_true v w : strict_eq v w = true ↔ v = w.
Proof. unfold strict_eq. by rewrite bool_decide_eq_true. Qed.

Lemma strict_eq_false v w : strict_eq v w = false ↔ v ≠ w.
Proof. unfold strict_eq. by rewrite bool_decide_eq_false. Qed.

Lemma get_lookup (a : array) i v : a !! i = Some (Some v) → get a i = v.
Proof. unfold get. by intros ->. Qed.

Lemma get_out_of_range (a : array) i : length a ≤ i → get a i = VUndefined.
Proof. intros H. unfold get. by rewrite lookup_ge_None_2. Qed.

Lemma every_true p (a : array) :
  every p a = true ↔ ∀ i v, a !! i = Some (Some v) → p v = true.
Proof.
  unfold every. rewrite forallb_forall. split.
  - intros H i v Hi. apply (H (Some v)).
    apply list_elem_of_In, list_elem_of_lookup. eauto.
  - intros H [v|] Hin; [|done].
    apply list_elem_of_In, list_elem_of_lookup in Hin as [i Hi]. eauto.
Qed.

Lemma board_lookup (squares : array) i :
  is_board squares → i < 9 →
  ∃ v, squares !! i = Some (Some v) ∧ (v = VNull ∨ is_mark v).
Proof.
  intros [Hlen Hcells] Hi.
  destruct (lookup_lt_is_Some_2 squares i) as [slot Hslot]; [lia|].
  rewrite Forall_lookup in Hcells.
  destruct (Hcells i slot Hslot) as [-> | [-> | ->]];
    eexists; (split; [done|]); unfold is_mark; auto.
Qed.

Lemma board_get (squares : array) i :
  is_board squares →
  get squares i = VNull ∨ is_mark (get squares i) ∨
  (9 ≤ i ∧ get squares i = VUndefined).
Proof.
  intros Hb. destruct (decide (i < 9)) as [Hi|Hi].
  - destruct (board_lookup squares i Hb Hi) as (v & Hv & Hcase).
    rewrite (get_lookup _ _ _ Hv). tauto.
  - right; right. split; [lia|]. apply get_out_of_range.
    destruct Hb as [-> _]. lia.
Qed.

Lemma board_truthy_mark (squares : array) i :
  is_board squares → truthy (get squares i) = true → is_mark (get squares i).
Proof.
  intros Hb Ht. destruct (board_get squares i Hb) as [H | [H | [_ H]]];
    [|done|]; by rewrite H in Ht.
Qed.

Lemma emptyBoard_is_board : is_board emptyBoard.
Proof.
  split; [done|]. apply Forall_replicate. by left.
Qed.

(** ** The evaluator *)

Lemma wins_line_matches squares l : wins squares l → line_matches squares l = true.
Proof.
  destruct l as [[a b] c]. intros (m & Hm & Ha & Hb & Hc). simpl in *.
  unfold line_matches. rewrite Ha, Hb, Hc, (is_mark_truthy m Hm).
  unfold strict_eq. by rewrite bool_decide_eq_true_2.
Qed.

Lemma line_matches_wins squares l :
  is_board squares → line_matches squares l = true → wins squares l.
Proof.
  destruct l as [[a b] c]. intros Hboard H. unfold line_matches in H.
  apply andb_prop in H as [H Hc]. apply andb_prop in H as [Ha Hb].
  apply strict_eq_true in Hb, Hc.
  exists (get squares a). simpl. eauto using board_truthy_mark.
Qed.

(** The loop of version 1 stops at the first line, in the order of [rest],
    that passes the test. *)
Lemma V1_scan_lines_Some rest squares l :
  V1.scan_lines rest squares = Some l ↔
  ∃ i, rest !! i = Some l ∧ line_matches squares l = true ∧
       ∀ j l', j < i → rest !! j = Some l' → line_matches squares l' = false.
Proof.
  revert l. induction rest as [|l0 rest IH]; intros l; simpl.
  - split; [done|]. by intros (i & Hi & _).
  - destruct (line_matches squares l0) eqn:E0.
    + split.
      * intros [= <-]. exists 0. repeat split; [done|]. intros; lia.
      * intros (i & Hi & Hl & Hmin). destruct i as [|i]; [by simplify_eq/=|].
        specialize (Hmin 0 l0). rewrite E0 in Hmin. discriminate Hmin; [lia|done].
    + rewrite IH. split.
      * intros (i & Hi & Hl & Hmin). exists (S i). repeat split; [done..|].
        intros [|j] l' Hj Hl'; simplify_eq/=; [done|]. eapply Hmin; [|done]. lia.
      * intros (i & Hi & Hl & Hmin). destruct i as [|i]; simplify_eq/=.
        { congruence. }
        exists i. repeat split; [done..|].
        intros j l' Hj Hl'. apply (Hmin (S j) l'); [lia|done].
Qed.

Lemma V1_scan_lines_None rest squares :
  V1.scan_lines rest squares = None ↔
  ∀ l, l ∈ rest → line_matches squares l = false.
Proof.
  induction rest as [|l0 rest IH]; simpl.
  - split; [|done]. intros _ l Hl. by apply elem_of_nil in Hl.
  - destruct (line_matches squares l0) eqn:E0.
    + split; [done|]. intros H. specialize (H l0). rewrite E0 in H.
      discriminate H. by left.
    + rewrite IH. split.
      * intros H l [-> | Hl]%elem_of_cons; auto.
      * intros H l Hl. apply H. by right.
Qed.

(** The loop of versions 2 and 3 is the loop of version 1 with the result
    record built around the line. *)
Lemma scan_lines_V1 rest squares :
  scan_lines rest squares =
  (λ l, {| status := HasWinner;
           winner := Some (get squares (l.1.1));
           winnerLine := Some l |}) <$> V1.scan_lines rest squares.
Proof.
  induction rest as [|l0 rest IH]; simpl; [done|].
  by destruct (line_matches squares l0).
Qed.

Lemma calculateGameResult_V1 squares :
  calculateGameResult squares =
  match V1.calculateWinnerLine squares with
  | Some l => {| status := HasWinner;
                 winner := Some (get squares (l.1.1));
                 winnerLine := Some l |}
  | None => {| status := if every truthy squares then Draw else NotFinished;
               winner := None;
               winnerLine := None |}
  end.
Proof.
  unfold calculateGameResult, V1.calculateWinnerLine. rewrite scan_lines_V1.
  by destruct (V1.scan_lines lines squares).
Qed.

Lemma board_every_truthy squares :
  is_board squares → every truthy squares = true ↔ all_filled squares.
Proof.
  intros Hb. rewrite every_true. split.
  - intros H i Hi. destruct (board_lookup squares i Hb Hi) as (v & Hv & _).
    rewrite (get_lookup _ _ _ Hv). apply (H i v) in Hv as Ht.
    rewrite <- (get_lookup _ _ _ Hv) in Ht |- *. by apply board_truthy_mark.
  - intros H i v Hv. assert (i < 9) as Hi.
    { apply lookup_lt_Some in Hv. destruct Hb as [<- _]. done. }
    specialize (H i Hi). rewrite (get_lookup _ _ _ Hv) in H.
    by apply is_mark_truthy.
Qed.

Lemma board_no_winning_line squares :
  is_board squares → ¬ has_winning_line squares →
  V1.calculateWinnerLine squares = None.
Proof.
  intros Hb Hno. apply V1_scan_lines_None. intros l Hl.
  destruct (line_matches squares l) eqn:E; [|done].
  exfalso. apply Hno. exists l. eauto using line_matches_wins.
Qed.

Lemma no_line_found squares :
  V1.calculateWinnerLine squares = None → ¬ has_winning_line squares.
Proof.
  intros E (l & Hl & Hw%wins_line_matches).
  unfold V1.calculateWinnerLine in E. rewrite V1_scan_lines_None in E.
  by rewrite (E l Hl) in Hw.
Qed.

Lemma board_first_winning_line squares :
  is_board squares → has_winning_line squares →
  ∃ i l, V1.calculateWinnerLine squares = Some l ∧ lines !! i = Some l ∧
         wins squares l ∧
         ∀ j l', j < i → lines !! j = Some l' → ¬ wins squares l'.
Proof.
  intros Hb (l0 & Hl0 & Hw0%wins_line_matches).
  destruct (V1.calculateWinnerLine squares) as [l|] eqn:E.
  - apply V1_scan_lines_Some in E as (i & Hi & Hl & Hmin).
    exists i, l. repeat split; [done|by apply line_matches_wins|].
    intros j l' Hj Hl' Hw%wins_line_matches.
    by rewrite (Hmin j l' Hj Hl') in Hw.
  - exfalso. unfold V1.calculateWinnerLine in E.
    rewrite V1_scan_lines_None in E. by rewrite (E l0 Hl0) in Hw0.
Qed.

Lemma lines_NoDup : NoDup lines.
Proof. apply (bool_decide_unpack (NoDup lines)). by vm_compute. Qed.

(** C1. On a board with at least one winning line the evaluator answers
    [HasWinner]; the line it reports is the first of [lines], in their
    order, whose three cells hold the same mark, and the winner is that
    mark. *)
Theorem calculateGameResult_has_winner (squares : array) :
  is_board squares → has_winning_line squares →
  ∃ i l m,
    lines !! i = Some l ∧
    is_mark m ∧
    get squares (l.1.1) = m ∧ get squares (l.1.2) = m ∧ get squares (l.2) = m ∧
    (∀ j l', j < i → lines !! j = Some l' → ¬ wins squares l') ∧
    calculateGameResult squares =
      {| status := HasWinner; winner := Some m; winnerLine := Some l |}.
Proof.
  intros Hb Hw.
  destruct (board_first_winning_line squares Hb Hw)
    as (i & l & Hscan & Hi & (m & Hm & Ha & Hbc) & Hmin).
  exists i, l, m. repeat split; try tauto; try done.
  rewrite calculateGameResult_V1, Hscan. by rewrite Ha.
Qed.

(** C2. On a board with no winning line the evaluator names no winner; it
    answers [Draw] exactly when every cell holds a mark and [NotFinished]
    otherwise, so one empty cell is enough for [NotFinished]. *)
Theorem calculateGameResult_no_winner (squares : array) :
  is_board squares → ¬ has_winning_line squares →
  winner (calculateGameResult squares) = None ∧
  winnerLine (calculateGameResult squares) = None ∧
  (status (calculateGameResult squares) = Draw ↔ all_filled squares) ∧
  (status (calculateGameResult squares) = NotFinished ↔ ¬ all_filled squares) ∧
  (∀ i, i < 9 → get squares i = VNull →
        status (calculateGameResult squares) = NotFinished).
Proof.
  intros Hb Hno.
  rewrite calculateGameResult_V1, (board_no_winning_line squares Hb Hno).
  simpl. pose proof (board_every_truthy squares Hb) as Hall.
  destruct (every truthy squares).
  - assert (all_filled squares) as Hf by by apply Hall.
    repeat split; try done.
    intros i Hi Hnull. specialize (Hf i Hi). rewrite Hnull in Hf.
    by apply is_mark_not_null in Hf.
  - assert (¬ all_filled squares) as Hf.
    { intros Hf. apply Hall in Hf. done. }
    repeat split; try done.
Qed.

(** C3. The eight lines are tried in the order rows, columns, main
    diagonal, anti-diagonal. The line reported is the earliest of them that
    wins: a winning line with no winning line before it is the one
    reported, with its mark as winner; a line is never reported while an
    earlier one wins too; and the board filled with one mark reports the
    top row. *)
Theorem calculateGameResult_line_priority :
  lines = [ (0, 1, 2); (3, 4, 5); (6, 7, 8);
            (0, 3, 6); (1, 4, 7); (2, 5, 8);
            (0, 4, 8); (2, 4, 6) ] ∧
  (∀ squares i l,
     is_board squares →
     lines !! i = Some l → wins squares l →
     (∀ j l', j < i → lines !! j = Some l' → ¬ wins squares l') →
     calculateGameResult squares =
       {| status := HasWinner;
          winner := Some (get squares (l.1.1));
          winnerLine := Some l |}) ∧
  (∀ squares i j li lj,
     is_board squares → i < j →
     lines !! i = Some li → lines !! j = Some lj →
     wins squares li → wins squares lj →
     winnerLine (calculateGameResult squares) ≠ Some lj) ∧
  (∀ squares l,
     is_board squares →
     winnerLine (calculateGameResult squares) = Some l →
     ∃ i, lines !! i = Some l ∧ wins squares l ∧
          ∀ j l', j < i → lines !! j = Some l' → ¬ wins squares l') ∧
  (∀ m, is_mark m →
     winnerLine (calculateGameResult (Array_fill 9 m)) = Some (0, 1, 2)).
Proof.
  assert (∀ squares l,
    is_board squares →
    winnerLine (calculateGameResult squares) = Some l →
    ∃ i, lines !! i = Some l ∧ wins squares l ∧
         ∀ j l', j < i → lines !! j = Some l' → ¬ wins squares l') as Hfirst.
  { intros squares l Hb. rewrite calculateGameResult_V1.
    destruct (V1.calculateWinnerLine squares) as [l1|] eqn:E; [|done].
    simpl. intros [= ->].
    apply V1_scan_lines_Some in E as (i & Hi & Hl & Hmin).
    exists i. repeat split; [done|by apply line_matches_wins|].
    intros j l' Hj Hl' Hw%wins_line_matches.
    by rewrite (Hmin j l' Hj Hl') in Hw. }
  split; [done|]. split; [|split; [|split]].
  - intros squares i l Hb Hi Hw Hmin.
    assert (has_winning_line squares) as Hhas.
    { exists l. split; [by eapply list_elem_of_lookup_2|done]. }
    destruct (board_first_winning_line squares Hb Hhas)
      as (i0 & l0 & Hscan & Hi0 & Hw0 & Hmin0).
    assert (i0 = i) as ->.
    { destruct (Nat.lt_trichotomy i0 i) as [Hlt | [Heq | Hgt]]; [|done|].
      - by destruct (Hmin i0 l0 Hlt Hi0).
      - by destruct (Hmin0 i l Hgt Hi). }
    assert (l0 = l) as -> by congruence.
    by rewrite calculateGameResult_V1, Hscan.
  - intros squares i j li lj Hb Hij Hi Hj Hwi Hwj Hres.
    destruct (Hfirst squares lj Hb Hres) as (k & Hk & _ & Hmin).
    assert (k = j) as -> by (eapply NoDup_lookup; eauto using lines_NoDup).
    by apply (Hmin i li Hij Hi).
  - done.
  - by intros m [-> | ->].
Qed.

(** C9. Version 1's [calculateWinnerLine] finds a line exactly when
    [calculateGameResult] says [HasWinner], and then both report the same
    line and the winner is the mark at the first index of that line. *)
Theorem calculateWinnerLine_calculateGameResult (squares : array) :
  (is_Some (V1.calculateWinnerLine squares) ↔
   status (calculateGameResult squares) = HasWinner) ∧
  winnerLine (calculateGameResult squares) = V1.calculateWinnerLine squares ∧
  (∀ l, V1.calculateWinnerLine squares = Some l →
        winner (calculateGameResult squares) = Some (get squares (l.1.1)) ∧
        V1.winner squares = get squares (l.1.1)).
Proof.
  rewrite calculateGameResult_V1. unfold V1.winner.
  destruct (V1.calculateWinnerLine squares) as [l|]; simpl.
  - split; [|split]; [by split; eauto|done|]. by intros l' [= <-].
  - split; [|split]; [|done..]. split; [by intros [? ?]|].
    by destruct (every truthy squares).
Qed.

(** ** The history *)

Lemma index_Some {A} (h : list A) m x :
  index h m = Some x ↔ (0 ≤ m)%Z ∧ h !! Z.to_nat m = Some x.
Proof. unfold index. case_decide; [tauto|]. split; [done|tauto]. Qed.

Lemma index_None {A} (h : list A) m :
  index h m = None ↔ (m < 0 ∨ Z.of_nat (length h) ≤ m)%Z.
Proof.
  unfold index. case_decide.
  - rewrite lookup_ge_None. lia.
  - split; [lia|done].
Qed.

Lemma index_in_range {A} (h : list A) m x :
  index h m = Some x → (0 ≤ m < Z.of_nat (length h))%Z.
Proof. intros [? ?%lookup_lt_Some]%index_Some. lia. Qed.

(** Within the history, [slice(0, currentMove + 1)] keeps the entries
    [0 .. currentMove]. *)
Lemma slice_to_in_range {A} (h : list A) m :
  (0 ≤ m < Z.of_nat (length h))%Z →
  slice_to h (m + 1) = take (Z.to_nat m + 1) h.
Proof.
  intros Hm. unfold slice_to.
  destruct (Z.ltb_spec (m + 1) 0) as [?|_]; [lia|]. f_equal. lia.
Qed.

Lemma even_of_nat (n : nat) : Z.even (Z.of_nat n) = Nat.even n.
Proof.
  destruct (Nat.even n) eqn:E.
  - apply Nat.even_spec in E as [k ->]. apply Z.even_spec.
    exists (Z.of_nat k). lia.
  - rewrite <- Nat.negb_odd in E. apply negb_false_iff, Nat.odd_spec in E as [k ->].
    rewrite <- Z.negb_odd. apply negb_false_iff, Z.odd_spec.
    exists (Z.of_nat k). lia.
Qed.

Lemma rem_2_even (n : nat) : (Z.rem (Z.of_nat n) 2 =? 0)%Z = Nat.even n.
Proof.
  rewrite Z.rem_mod_nonneg, Zmod_even, even_of_nat by lia.
  by destruct (Nat.even n).
Qed.

Lemma xIsNext_mover s :
  (0 ≤ currentMove s)%Z →
  VStr (if xIsNext s then "X" else "O")%string = mover (Z.to_nat (currentMove s)).
Proof.
  intros H. unfold xIsNext, mover.
  rewrite <- (Z2Nat.id (currentMove s)) at 1 by done.
  by rewrite rem_2_even.
Qed.

(** ** Clicks *)

Lemma set_in_range (a : array) i v : i < length a → set a i v = <[i := Some v]> a.
Proof. intros H. unfold set. by case_decide. Qed.

Lemma get_null_lookup (a : array) i : get a i = VNull → a !! i = Some (Some VNull).
Proof. unfold get. by destruct (a !! i) as [[v|]|]; intros; simplify_eq. Qed.

Lemma handleClick_ignored xIsNext squares i :
  truthy (get squares i) = true ∨ status (calculateGameResult squares) ≠ NotFinished →
  handleClick xIsNext squares i = None.
Proof.
  intros H. unfold handleClick.
  destruct (truthy (get squares i)); [done|]. destruct H as [H|H]; [done|].
  by rewrite bool_decide_eq_false_2.
Qed.

Lemma handleClick_accepted xIsNext squares i :
  truthy (get squares i) = false → status (calculateGameResult squares) = NotFinished →
  handleClick xIsNext squares i =
    Some (set squares i (VStr (if xIsNext then "X" else "O")%string)).
Proof.
  intros Hi Hs. unfold handleClick, slice. rewrite Hi.
  by rewrite bool_decide_eq_true_2.
Qed.

Lemma V1_handleClick_ignored xIsNext squares i :
  is_board squares → i < 9 →
  truthy (get squares i) = true ∨ status (calculateGameResult squares) ≠ NotFinished →
  V1.handleClick xIsNext squares i = None.
Proof.
  intros Hb Hi H. unfold V1.handleClick.
  destruct (truthy (get squares i)) eqn:Ht; [done|]. destruct H as [H|H]; [done|].
  rewrite calculateGameResult_V1 in H. unfold V1.winner.
  destruct (V1.calculateWinnerLine squares) as [[[a b] c]|] eqn:E; simpl in *.
  - apply V1_scan_lines_Some in E as (_ & _ & Hl & _).
    unfold line_matches in Hl. apply andb_prop in Hl as [Hl _].
    apply andb_prop in Hl as [-> _]. done.
  - destruct (every truthy squares) eqn:Ev; [|done].
    apply (board_every_truthy squares Hb) in Ev.
    by rewrite (is_mark_truthy _ (Ev i Hi)) in Ht.
Qed.

Lemma handlePlay_in_range s nextSquares :
  (0 ≤ currentMove s < Z.of_nat (length (history s)))%Z →
  handlePlay s nextSquares =
    {| history := take (Z.to_nat (currentMove s) + 1) (history s) ++ [nextSquares];
       currentMove := currentMove s + 1;
       sortAscend := sortAscend s |}.
Proof.
  intros Hm. unfold handlePlay. rewrite (slice_to_in_range _ _ Hm). f_equal.
  rewrite length_app, length_take_le by lia. simpl. lia.
Qed.

Lemma one_move_insert (squares : array) i m :
  get squares i = VNull → one_move m squares (<[i := Some m]> squares).
Proof.
  intros Hi%get_null_lookup. apply lookup_lt_Some in Hi as Hlt.
  exists i. repeat split.
  - by apply get_lookup.
  - apply get_lookup. by apply list_lookup_insert_eq.
  - apply length_insert.
  - intros k Hk. by apply list_lookup_insert_ne.
Qed.

Lemma play_accepted s squares i :
  currentSquares s = Some squares →
  get squares i = VNull →
  status (calculateGameResult squares) = NotFinished →
  play s i =
    Returned
      {| history :=
           take (Z.to_nat (currentMove s) + 1) (history s)
           ++ [<[i := Some (mover (Z.to_nat (currentMove s)))]> squares];
         currentMove := currentMove s + 1;
         sortAscend := sortAscend s |}.
Proof.
  intros Hcur Hi Hs. unfold play. rewrite Hcur.
  apply index_in_range in Hcur as Hm.
  rewrite handleClick_accepted by (done || by rewrite Hi).
  rewrite xIsNext_mover by lia.
  rewrite set_in_range by (eapply lookup_lt_Some, get_null_lookup; done).
  by rewrite handlePlay_in_range.
Qed.

Lemma play_unchanged s squares i :
  currentSquares s = Some squares →
  truthy (get squares i) = true ∨
    status (calculateGameResult squares) ≠ NotFinished →
  play s i = Returned s.
Proof.
  intros Hcur H. unfold play. by rewrite Hcur, (handleClick_ignored _ _ _ H).
Qed.

(** C4. A click on a cell that is not empty, or on any cell once the game
    is won or drawn, changes nothing and throws nothing: the state after
    the click is the state before it. The cell test is the code's ([truthy],
    which every mark passes); for version 1, which has no [Draw] status, the
    same holds on boards. *)
Theorem play_ignored (s : GameState) (squares : array) (i : nat) :
  currentSquares s = Some squares →
  truthy (get squares i) = true ∨
    status (calculateGameResult squares) ≠ NotFinished →
  play s i = Returned s ∧
  (is_board squares → i < 9 → V1.play s i = Returned s).
Proof.
  intros Hcur H. split; [by eapply play_unchanged|].
  intros Hb Hi. unfold V1.play. rewrite Hcur.
  by rewrite (V1_handleClick_ignored _ _ _ Hb Hi H).
Qed.

Lemma jumpTo_sequence_history (s : GameState) (moves : list Z) :
  history (foldl jumpTo s moves) = history s ∧
  sortAscend (foldl jumpTo s moves) = sortAscend s.
Proof.
  revert s. induction moves as [|m moves IH]; intros s; simpl; [done|].
  destruct (IH (jumpTo s m)) as [-> ->]. done.
Qed.

(** C6. [jumpTo] stores the move and leaves the rest of the state as it
    is: the history has the same length and the same board, cell by cell,
    at every position, and the sort order stays. The same holds after any
    number of jumps. *)
Theorem jumpTo_frame (s : GameState) (m : Z) :
  currentMove (jumpTo s m) = m ∧
  history (jumpTo s m) = history s ∧
  length (history (jumpTo s m)) = length (history s) ∧
  (∀ k, history (jumpTo s m) !! k = history s !! k) ∧
  (∀ k squares squares' j,
     history s !! k = Some squares → history (jumpTo s m) !! k = Some squares' →
     get squares' j = get squares j) ∧
  sortAscend (jumpTo s m) = sortAscend s ∧
  (∀ moves, history (foldl jumpTo s moves) = history s).
Proof.
  split; [done|]. split; [done|]. split; [done|]. split; [done|].
  split; [|split; [done|]].
  - intros k squares squares' j Hk Hk'. simpl in Hk'. congruence.
  - intros moves. apply jumpTo_sequence_history.
Qed.

(** C10. [jumpTo] checks nothing: any integer is stored as it is, and the
    current board read afterwards is [undefined] exactly when the integer
    is not an index of the history. *)
Theorem jumpTo_unchecked (s : GameState) (m : Z) :
  currentMove (jumpTo s m) = m ∧
  history (jumpTo s m) = history s ∧
  (currentSquares (jumpTo s m) = None ↔
   (m < 0 ∨ Z.of_nat (length (history s)) ≤ m)%Z) ∧
  ((0 ≤ m < Z.of_nat (length (history s)))%Z →
   currentSquares (jumpTo s m) = history s !! Z.to_nat m).
Proof.
  repeat split; try apply index_None.
  intros [H _]. unfold currentSquares, index. simpl. by case_decide.
Qed.

(** C5. An accepted move on an empty cell, from a state whose current move
    is an index of the history: the new history is the entries
    [0 .. currentMove] of the old one followed by the new board, which is
    the current board with the played cell, and only that cell, set to the
    mover's mark; the current move becomes the last index. From a history
    of length 5 at move 2 the result has length 4 and keeps the first three
    entries. *)
Theorem play_truncates_and_appends (s : GameState) (squares : array) (i : nat) :
  currentSquares s = Some squares →
  get squares i = VNull →
  status (calculateGameResult squares) = NotFinished →
  ∃ s' nextSquares,
    play s i = Returned s' ∧
    (0 ≤ currentMove s < Z.of_nat (length (history s)))%Z ∧
    history s' = take (Z.to_nat (currentMove s) + 1) (history s) ++ [nextSquares] ∧
    i < length squares ∧
    nextSquares = <[i := Some (mover (Z.to_nat (currentMove s)))]> squares ∧
    one_move (mover (Z.to_nat (currentMove s))) squares nextSquares ∧
    mover (Z.to_nat (currentMove s)) =
      VStr (if Z.even (currentMove s) then "X" else "O")%string ∧
    currentMove s' = (currentMove s + 1)%Z ∧
    currentMove s' = (Z.of_nat (length (history s')) - 1)%Z ∧
    currentSquares s' = Some nextSquares ∧
    sortAscend s' = sortAscend s ∧
    (length (history s) = 5 → currentMove s = 2%Z →
     length (history s') = 4 ∧
     ∀ k, k < 3 → history s' !! k = history s !! k).
Proof.
  intros Hcur Hi Hs. apply index_in_range in Hcur as Hm.
  eexists _, _. split; [by apply play_accepted|]. simpl.
  assert (length (take (Z.to_nat (currentMove s) + 1) (history s)) =
          Z.to_nat (currentMove s) + 1) as Hlen by (rewrite length_take_le; lia).
  repeat split; try done; try lia.
  - eapply lookup_lt_Some, get_null_lookup; done.
  - by apply one_move_insert.
  - unfold mover. rewrite <- (Z2Nat.id (currentMove s)) at 2 by lia.
    by rewrite even_of_nat.
  - rewrite length_app, Hlen. simpl. lia.
  - unfold currentSquares. simpl. apply index_Some. split; [lia|].
    rewrite lookup_app_r by lia.
    replace (Z.to_nat (currentMove s + 1) - _) with 0 by lia. done.
  - rewrite length_app, Hlen. simpl. lia.
  - intros k Hk. rewrite lookup_app_l by lia. apply lookup_take_lt. lia.
Qed.

(** ** Reachable states *)

Lemma squareIndices_lt i : i ∈ squareIndices → i < 9.
Proof.
  unfold squareIndices, nRows, nCols. simpl.
  rewrite !elem_of_cons, elem_of_nil. lia.
Qed.

Lemma is_board_insert (squares : array) i m :
  is_board squares → is_mark m → is_board (<[i := Some m]> squares).
Proof.
  intros [Hlen Hcells] Hm. split; [by rewrite length_insert|].
  apply Forall_insert; [done|]. unfold is_cell. destruct Hm as [-> | ->]; auto.
Qed.

Lemma mover_is_mark k : is_mark (mover k).
Proof. unfold mover, is_mark. destruct (Nat.even k); auto. Qed.

(** The entries of a history truncated after position [k] and extended by
    one board. *)
Lemma lookup_truncated {A} (h : list A) k x j :
  k < length h →
  (take (k + 1) h ++ [x]) !! j =
    if decide (j ≤ k) then h !! j
    else if decide (j = k + 1) then Some x else None.
Proof.
  intros Hk.
  assert (length (take (k + 1) h) = k + 1) as Hlen by (rewrite length_take_le; lia).
  repeat case_decide.
  - rewrite lookup_app_l by lia. apply lookup_take_lt. lia.
  - subst j. rewrite lookup_app_r by lia. rewrite Hlen.
    by replace (k + 1 - (k + 1)) with 0 by lia.
  - apply lookup_ge_None_2. rewrite length_app, Hlen. simpl. lia.
Qed.

Lemma strong_invariant_initial : strong_invariant initialState.
Proof.
  split.
  - split; simpl; [done|lia| |lia].
    intros [|[|i]] prev next Hi; simpl; try done; lia.
  - apply Forall_singleton, emptyBoard_is_board.
Qed.

Lemma strong_invariant_current s :
  strong_invariant s →
  ∃ squares, currentSquares s = Some squares ∧ is_board squares.
Proof.
  intros [[_ _ _ Hcur] Hboards].
  destruct (lookup_lt_is_Some_2 (history s) (Z.to_nat (currentMove s)))
    as [squares Hsq]; [lia|].
  exists squares. split; [apply index_Some; split; [lia|done]|].
  rewrite Forall_lookup in Hboards. eauto.
Qed.

(** A click on a rendered square of a board either changes nothing or is an
    accepted move on an empty cell. *)
Lemma play_cases s squares i :
  currentSquares s = Some squares → is_board squares → i < 9 →
  play s i = Returned s ∨
  (get squares i = VNull ∧
   play s i =
     Returned
       {| history :=
            take (Z.to_nat (currentMove s) + 1) (history s)
            ++ [<[i := Some (mover (Z.to_nat (currentMove s)))]> squares];
          currentMove := currentMove s + 1;
          sortAscend := sortAscend s |}).
Proof.
  intros Hcur Hb Hi.
  destruct (truthy (get squares i)) eqn:Ht.
  { left. apply (play_unchanged s squares i Hcur). by left. }
  destruct (decide (status (calculateGameResult squares) = NotFinished)) as [Hs|Hs].
  2: { left. apply (play_unchanged s squares i Hcur). by right. }
  assert (get squares i = VNull) as Hnull.
  { destruct (board_get squares i Hb) as [H | [H | [H _]]]; [done| |lia].
    by rewrite (is_mark_truthy _ H) in Ht. }
  right. split; [done|]. by apply play_accepted.
Qed.

Lemma strong_invariant_play s i s' :
  strong_invariant s → i ∈ squareIndices → play s i = Returned s' →
  strong_invariant s'.
Proof.
  intros Hinv Hi%squareIndices_lt Hplay.
  destruct (strong_invariant_current s Hinv) as (squares & Hcur & Hb).
  destruct (play_cases s squares i Hcur Hb Hi) as [Hsame | [Hnull Hacc]].
  { rewrite Hsame in Hplay. by simplify_eq. }
  rewrite Hacc in Hplay. simplify_eq. clear Hacc.
  destruct Hinv as [[Hfirst Hlen Hsteps Hm] Hboards].
  apply index_Some in Hcur as [_ Hcur].
  set (k := Z.to_nat (currentMove s)) in *.
  assert (k < length (history s)) as Hk by lia.
  split; [split|]; simpl.
  - by rewrite lookup_truncated, decide_True by lia.
  - rewrite length_app. simpl. lia.
  - intros j prev next Hj. rewrite !lookup_truncated by done.
    destruct (decide (j ≤ k)) as [Hjk|Hjk].
    + rewrite decide_True by lia. by apply Hsteps.
    + destruct (decide (j = k + 1)) as [->|]; [|done].
      replace (k + 1 - 1) with k by lia. rewrite decide_True, Hcur by lia.
      intros [= <-] [= <-]. by apply one_move_insert.
  - rewrite length_app, length_take_le by lia. simpl. lia.
  - apply Forall_app. split; [by apply Forall_take|].
    apply Forall_singleton, is_board_insert; [done|apply mover_is_mark].
Qed.

Lemma reachable_strong_invariant s : reachable s → strong_invariant s.
Proof.
  induction 1 as [|s i s' _ IH Hi Hplay|s m _ IH Hm|s _ IH].
  - apply strong_invariant_initial.
  - by eapply strong_invariant_play.
  - destruct IH as [[? ? ? ?] ?]. split; [by split|done].
  - destruct IH as [[? ? ? ?] ?]. split; [by split|done].
Qed.

(** From a reachable state the board renders, and a click on any of its
    squares returns. *)
Lemma reachable_play_returns s i :
  reachable s → ∃ s', play s i = Returned s'.
Proof.
  intros (squares & Hcur & _)%reachable_strong_invariant%strong_invariant_current.
  unfold play. rewrite Hcur. destruct (handleClick _ _ _); eauto.
Qed.

(** C7. In every state reached from the fresh one by clicks on the squares,
    jumps to a move of the history and changes of the sort order: the
    history starts with the empty board and has at least one entry; each
    later entry is the entry before it with one empty cell filled by the
    mark of the player to move there (X after an even number of moves);
    and the current move is an index of the history. *)
Theorem reachable_invariant (s : GameState) :
  reachable s →
  history s !! 0 = Some emptyBoard ∧
  1 ≤ length (history s) ∧
  (∀ i prev next,
     0 < i → history s !! (i - 1) = Some prev → history s !! i = Some next →
     one_move (VStr (if Nat.even (i - 1) then "X" else "O")%string) prev next) ∧
  (0 ≤ currentMove s < Z.of_nat (length (history s)))%Z.
Proof.
  intros [[Hfirst Hlen Hsteps Hcur] _]%reachable_strong_invariant.
  split; [done|]. split; [done|]. split; [|done].
  intros i prev next. apply Hsteps.
Qed.

(** ** Move locations *)

(** A search from [a] upwards over [n] indices stops at the least index
    that passes the test. *)
Lemma find_seq_Some (p : nat → bool) a n i :
  find p (seq a n) = Some i ↔
  a ≤ i < a + n ∧ p i = true ∧ ∀ j, a ≤ j < i → p j = false.
Proof.
  revert a. induction n as [|n IH]; intros a; simpl.
  - split; [done|lia].
  - destruct (p a) eqn:Ea.
    + split.
      * intros [= <-]. repeat split; [lia..|done|lia].
      * intros (Hi & Hp & Hmin). f_equal.
        destruct (decide (a = i)) as [->|Hne]; [done|].
        rewrite (Hmin a) in Ea by lia. done.
    + rewrite IH. split.
      * intros (Hi & Hp & Hmin). repeat split; [lia..|done|].
        intros j Hj. destruct (decide (j = a)) as [->|]; [done|].
        apply Hmin. lia.
      * intros (Hi & Hp & Hmin). destruct (decide (i = a)) as [->|]; [congruence|].
        repeat split; [lia..|done|]. intros j Hj. apply Hmin. lia.
Qed.

Lemma find_seq_None (p : nat → bool) a n :
  find p (seq a n) = None ↔ ∀ j, a ≤ j < a + n → p j = false.
Proof.
  revert a. induction n as [|n IH]; intros a; simpl.
  - split; [lia|done].
  - destruct (p a) eqn:Ea.
    + split; [done|]. intros H. rewrite (H a) in Ea by lia. done.
    + rewrite IH. split.
      * intros H j Hj. destruct (decide (j = a)) as [->|]; [done|].
        apply H. lia.
      * intros H j Hj. apply H. lia.
Qed.

Lemma differs_at_test squares prevSquares i :
  differs_at squares prevSquares i ↔
  i < length squares ∧
  negb (strict_eq (get squares i) (get prevSquares i)) = true.
Proof.
  unfold differs_at. by rewrite negb_true_iff, strict_eq_false.
Qed.

Lemma first_difference_Some squares prevSquares i :
  first_difference squares prevSquares = Some i ↔
  differs_at squares prevSquares i ∧
  ∀ j, j < i → ¬ differs_at squares prevSquares j.
Proof.
  unfold first_difference. rewrite find_seq_Some, differs_at_test. split.
  - intros (Hi & Hp & Hmin). repeat split; [lia|done|].
    intros j Hj [_ Hd]%differs_at_test. rewrite Hmin in Hd by lia. done.
  - intros ((Hi & Hp) & Hmin). repeat split; [lia..|done|].
    intros j Hj. apply not_true_is_false. intros Hd.
    apply (Hmin j); [lia|]. apply differs_at_test. split; [lia|done].
Qed.

Lemma first_difference_None squares prevSquares :
  first_difference squares prevSquares = None ↔
  ∀ i, ¬ differs_at squares prevSquares i.
Proof.
  unfold first_difference. rewrite find_seq_None. split.
  - intros H i [Hi Hd]%differs_at_test. rewrite H in Hd by lia. done.
  - intros H j Hj. apply not_true_is_false. intros Hd.
    apply (H j), differs_at_test. split; [lia|done].
Qed.

(** C8, as the code has it. For a move after the first, the location is
    that of the lowest cell in which the board differs from the one before
    it: [(i / 3, i mod 3)]. That is the changed cell when exactly one cell
    differs, and [Error('Invalid move')] is thrown only when no cell
    differs. *)
Theorem moveLocation_first_difference
    (history : list array) (squares prevSquares : array) (move : nat) :
  0 < move → history !! (move - 1) = Some prevSquares →
  (∀ i, (∀ j, differs_at squares prevSquares j ↔ j = i) →
        moveLocation history squares move = Returned (Some (i / 3, i mod 3))) ∧
  (∀ i, differs_at squares prevSquares i →
        (∀ j, j < i → ¬ differs_at squares prevSquares j) →
        moveLocation history squares move = Returned (Some (i / 3, i mod 3))) ∧
  ((∃ i, differs_at squares prevSquares i) →
   ∃ i, differs_at squares prevSquares i ∧
        moveLocation history squares move = Returned (Some (i / 3, i mod 3))) ∧
  ((∀ i, ¬ differs_at squares prevSquares i) ↔
   moveLocation history squares move = Thrown InvalidMove).
Proof.
  intros Hmove Hprev. unfold moveLocation.
  rewrite decide_False, Hprev by lia.
  assert (∀ i, differs_at squares prevSquares i →
               (∀ j, j < i → ¬ differs_at squares prevSquares j) →
               first_difference squares prevSquares = Some i) as Hleast.
  { intros i Hi Hmin. by apply first_difference_Some. }
  split; [|split; [|split]].
  - intros i Hi. rewrite (Hleast i); [done|by apply Hi|].
    intros j Hj Hd%Hi. lia.
  - intros i Hi Hmin. by rewrite (Hleast i).
  - intros [i0 Hi0].
    destruct (first_difference squares prevSquares) as [i|] eqn:E.
    + apply first_difference_Some in E as [Hi _]. eauto.
    + rewrite first_difference_None in E. by destruct (E i0).
  - rewrite <- first_difference_None.
    destruct (first_difference squares prevSquares); naive_solver.
Qed.

(** C8, as the specification has it, fails where two cells differ: next to
    the empty board, a board with marks in cells 0 and 1 gets the location
    of cell 0, and nothing is thrown. *)
Lemma moveLocation_two_differences :
  differs_at board_two_changes emptyBoard 0 ∧
  differs_at board_two_changes emptyBoard 1 ∧
  moveLocation [emptyBoard; board_two_changes] board_two_changes 1
    = Returned (Some (0, 0)) ∧
  moveLocations [emptyBoard; board_two_changes]
    = Returned [None; Some (0, 0)].
Proof.
  repeat split; try done; simpl; lia.
Qed.

(** ** Move locations of reachable states *)

Lemma collect_Returned {A} (l : list (outcome A)) :
  (∀ o, o ∈ l → ∃ a, o = Returned a) → ∃ r, collect l = Returned r.
Proof.
  induction l as [|o l IH]; intros H; simpl; [by eexists|].
  destruct (H o) as [a ->]; [by left|].
  destruct IH as [r ->]; [|by eexists].
  intros o' Ho'. apply H. by right.
Qed.

Lemma one_move_differs m prev next :
  is_mark m → one_move m prev next → ∃ i, differs_at next prev i.
Proof.
  intros Hm (j & Hprev & Hnext & _ & _). exists j. split.
  - destruct (decide (j < length next)) as [|Hge]; [done|].
    rewrite get_out_of_range in Hnext by lia. by destruct Hm; simplify_eq.
  - rewrite Hprev, Hnext. by apply is_mark_not_null.
Qed.

(** With the invariants of the data model no adjacent boards are equal, so
    [moveLocations] throws nothing. *)
Lemma invariant_moveLocations s :
  invariant s → ∃ locations, moveLocations (history s) = Returned locations.
Proof.
  intros [_ _ Hsteps _]. apply collect_Returned. intros o Ho.
  apply elem_of_lookup_imap in Ho as (move & squares & -> & Hsq).
  unfold moveLocation. case_decide; [by eexists|].
  destruct (lookup_lt_is_Some_2 (history s) (move - 1)) as [prev Hprev].
  { apply lookup_lt_Some in Hsq. lia. }
  rewrite Hprev.
  destruct (first_difference squares prev) as [i|] eqn:E; [by eexists|].
  rewrite first_difference_None in E.
  destruct (one_move_differs (mover (move - 1)) prev squares) as [i Hi].
  - apply mover_is_mark.
  - apply Hsteps; [lia|done..].
  - by destruct (E i).
Qed.

Lemma reachable_moveLocations s :
  reachable s → ∃ locations, moveLocations (history s) = Returned locations.
Proof. intros [Hinv _]%reachable_strong_invariant. by apply invariant_moveLocations. Qed.

(** ** The theorems at concrete boards and states *)

Ltac by_decision P := apply (bool_decide_unpack P); vm_compute; exact I.

Lemma calculateGameResult_has_winner_witness :
  is_board board_top_row ∧ has_winning_line board_top_row ∧
  ∃ i l m,
    lines !! i = Some l ∧ is_mark m ∧
    calculateGameResult board_top_row =
      {| status := HasWinner; winner := Some m; winnerLine := Some l |}.
Proof.
  assert (is_board board_top_row) as Hb by by_decision (is_board board_top_row).
  assert (has_winning_line board_top_row) as Hw.
  { exists (0, 1, 2). split; [by left|].
    exists (VStr "X"%string). repeat split. by left. }
  split; [done|]. split; [done|].
  destruct (calculateGameResult_has_winner board_top_row Hb Hw)
    as (i & l & m & Hi & Hm & _ & _ & _ & _ & Hres).
  by exists i, l, m.
Defined.

Lemma calculateGameResult_no_winner_witness :
  (is_board board_draw ∧ ¬ has_winning_line board_draw ∧
   status (calculateGameResult board_draw) = Draw) ∧
  (is_board board_one_left ∧ ¬ has_winning_line board_one_left ∧
   status (calculateGameResult board_one_left) = NotFinished).
Proof.
  assert (is_board board_draw) as Hb1 by by_decision (is_board board_draw).
  assert (is_board board_one_left) as Hb2
    by by_decision (is_board board_one_left).
  assert (¬ has_winning_line board_draw) as Hn1 by by apply no_line_found.
  assert (¬ has_winning_line board_one_left) as Hn2 by by apply no_line_found.
  split; (split; [done|]); (split; [done|]).
  - destruct (calculateGameResult_no_winner board_draw Hb1 Hn1)
      as (_ & _ & _ & _ & _).
    reflexivity.
  - destruct (calculateGameResult_no_winner board_one_left Hb2 Hn2)
      as (_ & _ & _ & _ & Hempty).
    apply (Hempty 7); [lia|reflexivity].
Defined.

Lemma calculateGameResult_line_priority_witness :
  winnerLine (calculateGameResult (Array_fill 9 (VStr "O"%string)))
    = Some (0, 1, 2) ∧
  is_board board_column_and_diagonal ∧
  wins board_column_and_diagonal (0, 3, 6) ∧
  wins board_column_and_diagonal (0, 4, 8) ∧
  calculateGameResult board_column_and_diagonal =
    {| status := HasWinner;
       winner := Some (VStr "X"%string);
       winnerLine := Some (0, 3, 6) |}.
Proof.
  destruct calculateGameResult_line_priority as (_ & Hearliest & _ & _ & Hfull).
  assert (is_board board_column_and_diagonal) as Hb
    by by_decision (is_board board_column_and_diagonal).
  assert (wins board_column_and_diagonal (0, 3, 6)) as Hcol.
  { exists (VStr "X"%string). repeat split. by left. }
  assert (wins board_column_and_diagonal (0, 4, 8)) as Hdiag.
  { exists (VStr "X"%string). repeat split. by left. }
  split; [apply Hfull; by right|]. split; [done|]. split; [done|].
  split; [done|].
  apply (Hearliest board_column_and_diagonal 3 (0, 3, 6) Hb eq_refl Hcol).
  intros j l' Hj Hl' (m & _ & Ha & Hb' & Hc).
  destruct j as [|[|[|j]]]; [..|lia]; simplify_eq/=.
Defined.

Lemma play_ignored_witness :
  currentSquares state_of_five = Some [cX; c_; c_; c_; cO; c_; c_; c_; c_] ∧
  play state_of_five 0 = Returned state_of_five ∧
  V1.play state_of_five 4 = Returned state_of_five.
Proof.
  split; [reflexivity|].
  destruct (play_ignored state_of_five [cX; c_; c_; c_; cO; c_; c_; c_; c_] 0)
    as [H0 _]; [reflexivity|by left|].
  destruct (play_ignored state_of_five [cX; c_; c_; c_; cO; c_; c_; c_; c_] 4)
    as [_ H4]; [reflexivity|by left|].
  split; [done|]. apply H4; [|lia].
  by_decision (is_board [cX; c_; c_; c_; cO; c_; c_; c_; c_]).
Defined.

Lemma play_truncates_and_appends_witness :
  length (history state_of_five) = 5 ∧ currentMove state_of_five = 2%Z ∧
  ∃ s', play state_of_five 2 = Returned s' ∧
        length (history s') = 4 ∧
        ∀ k, k < 3 → history s' !! k = history state_of_five !! k.
Proof.
  split; [reflexivity|]. split; [reflexivity|].
  destruct (play_truncates_and_appends state_of_five
              [cX; c_; c_; c_; cO; c_; c_; c_; c_] 2)
    as (s' & nextSquares & Hplay & _ & _ & _ & _ & _ & _ & _ & _ & _ & _ & Hfive);
    [reflexivity..|].
  exists s'. split; [done|]. by apply Hfive.
Defined.

Lemma reachable_invariant_witness :
  reachable state_after_two ∧
  history state_after_two !! 0 = Some emptyBoard ∧
  (0 ≤ currentMove state_after_two
     < Z.of_nat (length (history state_after_two)))%Z.
Proof.
  assert (reachable state_after_two) as Hr.
  { apply (reachable_play state_after_one 4); [|by_decision (4 ∈ squareIndices)|done].
    apply (reachable_play initialState 0); [|by_decision (0 ∈ squareIndices)|done].
    apply reachable_initial. }
  split; [done|].
  destruct (reachable_invariant state_after_two Hr) as (H0 & _ & _ & Hcur).
  by split.
Defined.

Lemma moveLocation_first_difference_witness :
  moveLocation history_of_five [cX; c_; c_; c_; cO; c_; c_; c_; c_] 2
    = Returned (Some (1, 1)).
Proof.
  destruct (moveLocation_first_difference history_of_five
              [cX; c_; c_; c_; cO; c_; c_; c_; c_]
              [cX; c_; c_; c_; c_; c_; c_; c_; c_] 2)
    as (_ & Hleast & _); [lia|reflexivity|].
  apply (Hleast 4).
  - split; [simpl; lia|done].
  - intros j Hj [_ Hd]. destruct j as [|[|[|[|j]]]]; [by apply Hd..|lia].
Defined.

Lemma jumpTo_unchecked_witness :
  currentMove (jumpTo state_of_five 7) = 7%Z ∧
  currentSquares (jumpTo state_of_five 7) = None ∧
  currentSquares (jumpTo state_of_five (-1)) = None.
Proof.
  destruct (jumpTo_unchecked state_of_five 7) as (Hm & _ & Hnone & _).
  destruct (jumpTo_unchecked state_of_five (-1)) as (_ & _ & Hneg & _).
  split; [done|]. split.
  - apply Hnone. right. by vm_compute.
  - apply Hneg. by left.
Defined.

Lemma jumpTo_frame_witness :
  history (jumpTo state_of_five 0) = history_of_five ∧
  history (foldl jumpTo state_of_five [4; 1; 3]%Z) = history_of_five.
Proof.
  destruct (jumpTo_frame state_of_five 0) as (_ & Hh & _ & _ & _ & _ & Hmany).
  split; [exact Hh|exact (Hmany [4; 1; 3]%Z)].
Defined.

Lemma calculateWinnerLine_calculateGameResult_witness :
  V1.calculateWinnerLine board_top_row = Some (0, 1, 2) ∧
  winnerLine (calculateGameResult board_top_row) = Some (0, 1, 2) ∧
  winner (calculateGameResult board_top_row) = Some (VStr "X"%string).
Proof.
  destruct (calculateWinnerLine_calculateGameResult board_top_row)
    as (_ & Hline & Hwinner).
  split; [reflexivity|]. split; [exact Hline|].
  exact (proj1 (Hwinner (0, 1, 2) eq_refl)).
Defined.

(** ** The scenarios of the specification *)

(** X plays 0, 1, 2 and O plays 4, 7: X wins with the top row, and the
    next click is ignored. *)
Example scenario_top_row :
  ∃ s, clicks initialState [0; 4; 1; 7; 2] = Returned s ∧
       currentSquares s = Some [cX; cX; cX; c_; cO; c_; c_; cO; c_] ∧
       calculateGameResult [cX; cX; cX; c_; cO; c_; c_; cO; c_] =
         {| status := HasWinner;
            winner := Some (VStr "X"%string);
            winnerLine := Some (0, 1, 2) |} ∧
       play s 3 = Returned s.
Proof. by eexists. Qed.

(** The moves 0, 1, 2, 3, 5, 4, 6, 8, 7 fill the board without a line. *)
Example scenario_draw :
  ∃ s, clicks initialState [0; 1; 2; 3; 5; 4; 6; 8; 7] = Returned s ∧
       currentSquares s = Some board_draw ∧
       status (calculateGameResult board_draw) = Draw ∧
       length (history s) = 10.
Proof. by eexists. Qed.

(** A second click on the same square leaves the history as it is. *)
Example scenario_same_square_twice :
  clicks initialState [0; 0] = clicks initialState [0].
Proof. reflexivity. Qed.

(** * Further properties of the code *)

(** ** The evaluator on arbitrary arrays *)

Lemma line_matches_inv squares l :
  line_matches squares l = true →
  ∃ s, s ≠ EmptyString ∧
       get squares (l.1.1) = VStr s ∧ get squares (l.1.2) = VStr s ∧
       get squares (l.2) = VStr s.
Proof.
  destruct l as [[a b] c]. unfold line_matches. simpl.
  intros [[Ha Hb%strict_eq_true]%andb_prop Hc%strict_eq_true]%andb_prop.
  destruct (get squares a) as [| |s] eqn:E; try done.
  exists s. repeat split; try done.
  simpl in Ha. intros ->. done.
Qed.

Lemma get_defined_lt (a : array) i : get a i ≠ VUndefined → i < length a.
Proof.
  intros H. destruct (decide (i < length a)) as [|Hge]; [done|].
  destruct H. apply get_out_of_range. lia.
Qed.

(** The result record is well formed on every array, a board or not:
    [winner] and [winnerLine] are set exactly with the status
    [HasWinner], the line is one of [lines] and lies within the array, and
    its three cells hold the winner, a non-empty string. *)
Theorem calculateGameResult_wellformed (squares : array) :
  (status (calculateGameResult squares) = HasWinner ↔
   is_Some (winner (calculateGameResult squares))) ∧
  (status (calculateGameResult squares) = HasWinner ↔
   is_Some (winnerLine (calculateGameResult squares))) ∧
  (∀ l, winnerLine (calculateGameResult squares) = Some l →
        l ∈ lines ∧
        l.1.1 < length squares ∧ l.1.2 < length squares ∧ l.2 < length squares ∧
        ∃ s, s ≠ EmptyString ∧
             winner (calculateGameResult squares) = Some (VStr s) ∧
             get squares (l.1.1) = VStr s ∧ get squares (l.1.2) = VStr s ∧
             get squares (l.2) = VStr s).
Proof.
  rewrite calculateGameResult_V1.
  destruct (V1.calculateWinnerLine squares) as [l|] eqn:E; simpl.
  - split; [by split; eauto|]. split; [by split; eauto|].
    intros l' [= <-].
    apply V1_scan_lines_Some in E as (i & Hi & Hl & _).
    destruct (line_matches_inv squares l Hl) as (s & Hs & Ha & Hb & Hc).
    split; [by eapply list_elem_of_lookup_2|].
    repeat split; try (apply get_defined_lt; congruence).
    exists s. rewrite Ha. done.
  - split; [|split; [|done]].
    all: split; [by destruct (every truthy squares)|by intros [? ?]].
Qed.

Lemma lines_reach_2 l : l ∈ lines → 2 ≤ l.2.
Proof.
  unfold lines. rewrite !elem_of_cons, elem_of_nil.
  intros H; repeat destruct H as [->|H]; simpl; try lia; done.
Qed.

(** An array of fewer than three cells never has a winner, and it is a draw
    as soon as none of its cells is falsy; the empty array is a draw. *)
Theorem calculateGameResult_short_array (squares : array) :
  length squares < 3 →
  status (calculateGameResult squares) ≠ HasWinner ∧
  (status (calculateGameResult squares) = Draw ↔
   ∀ i v, squares !! i = Some (Some v) → truthy v = true).
Proof.
  intros Hlen. rewrite calculateGameResult_V1.
  destruct (V1.calculateWinnerLine squares) as [l|] eqn:E; simpl.
  - exfalso. apply V1_scan_lines_Some in E as (i & Hi & Hl & _).
    destruct (line_matches_inv squares l Hl) as (s & _ & _ & _ & Hc).
    apply list_elem_of_lookup_2, lines_reach_2 in Hi.
    rewrite get_out_of_range in Hc by lia. done.
  - rewrite <- every_true. by destruct (every truthy squares).
Qed.

Lemma calculateGameResult_short_array_witness :
  status (calculateGameResult []) = Draw ∧
  status (calculateGameResult [cX; c_]) = NotFinished.
Proof.
  destruct (calculateGameResult_short_array []) as [_ Hempty]; [simpl; lia|].
  destruct (calculateGameResult_short_array [cX; c_]) as [Hno Hdraw]; [simpl; lia|].
  split; [by apply Hempty|].
  destruct (status (calculateGameResult [cX; c_])) eqn:E; [|done..].
  assert (truthy VNull = true) as Hf by (apply (proj1 Hdraw eq_refl 1); done).
  done.
Defined.

(** ** Both players are treated alike *)

Lemma swap_mark_involutive v : swap_mark (swap_mark v) = v.
Proof.
  destruct v as [| |s]; try done. simpl.
  destruct (String.eqb_spec s "X") as [->|]; [done|].
  destruct (String.eqb_spec s "O") as [->|]; [done|]. simpl.
  destruct (String.eqb_spec s "X"); [done|].
  by destruct (String.eqb_spec s "O").
Qed.

Lemma swap_mark_truthy v : truthy (swap_mark v) = truthy v.
Proof.
  destruct v as [| |s]; try done. simpl.
  destruct (String.eqb_spec s "X") as [->|]; [done|].
  by destruct (String.eqb_spec s "O") as [->|].
Qed.

Lemma swap_mark_strict_eq v w :
  strict_eq (swap_mark v) (swap_mark w) = strict_eq v w.
Proof.
  unfold strict_eq. apply bool_decide_ext. split; [|by intros ->].
  intros H. by rewrite <- (swap_mark_involutive v), H, swap_mark_involutive.
Qed.

Lemma get_swap_board squares i :
  get (swap_board squares) i = swap_mark (get squares i).
Proof.
  unfold get, swap_board. rewrite list_lookup_fmap.
  by destruct (squares !! i) as [[v|]|].
Qed.

Lemma line_matches_swap_board squares l :
  line_matches (swap_board squares) l = line_matches squares l.
Proof.
  destruct l as [[a b] c]. unfold line_matches.
  by rewrite !get_swap_board, swap_mark_truthy, !swap_mark_strict_eq.
Qed.

Lemma every_truthy_swap_board squares :
  every truthy (swap_board squares) = every truthy squares.
Proof.
  unfold every, swap_board. induction squares as [|[v|] squares IH]; simpl.
  - done.
  - rewrite swap_mark_truthy. f_equal. exact IH.
  - exact IH.
Qed.

Lemma V1_scan_lines_swap_board rest squares :
  V1.scan_lines rest (swap_board squares) = V1.scan_lines rest squares.
Proof.
  induction rest as [|l rest IH]; simpl; [done|].
  by rewrite line_matches_swap_board, IH.
Qed.

(** Exchanging the marks X and O on any array exchanges them in the winner
    and changes neither the status nor the reported line. *)
Theorem calculateGameResult_swap_board (squares : array) :
  calculateGameResult (swap_board squares) =
    {| status := status (calculateGameResult squares);
       winner := swap_mark <$> winner (calculateGameResult squares);
       winnerLine := winnerLine (calculateGameResult squares) |}.
Proof.
  rewrite !calculateGameResult_V1. unfold V1.calculateWinnerLine.
  rewrite V1_scan_lines_swap_board, every_truthy_swap_board.
  destruct (V1.scan_lines lines squares) as [l|]; simpl; [|done].
  by rewrite get_swap_board.
Qed.

(** ** Clicks on any array *)


Lemma get_set_eq (a : array) i v : get (set a i v) i = v.
Proof.
  unfold set, get. case_decide.
  - by rewrite list_lookup_insert_eq.
  - rewrite lookup_app_r by lia.
    rewrite lookup_app_r by (rewrite length_replicate; lia).
    rewrite length_replicate. by replace (i - length a - _) with 0 by lia.
Qed.

Lemma get_set_ne (a : array) i j v : j ≠ i → get (set a i v) j = get a j.
Proof.
  intros Hne. unfold set. case_decide.
  - unfold get. by rewrite list_lookup_insert_ne.
  - destruct (decide (j < length a)) as [Hj|Hj].
    + unfold get. by rewrite lookup_app_l.
    + rewrite (get_out_of_range a j) by lia. unfold get.
      rewrite lookup_app_r by lia.
      destruct (decide (j < i)) as [Hji|Hji].
      * rewrite lookup_app_l by (rewrite length_replicate; lia).
        by rewrite lookup_replicate_2 by lia.
      * rewrite lookup_ge_None_2; [done|].
        rewrite length_app, length_replicate. simpl. lia.
Qed.


(** ** Version 1 against versions 2 and 3 *)

Lemma V1_winner_truthy squares :
  truthy (V1.winner squares) = true ↔ is_Some (V1.calculateWinnerLine squares).
Proof.
  unfold V1.winner.
  destruct (V1.calculateWinnerLine squares) as [l|] eqn:E.
  - split; [eauto|]. intros _.
    apply V1_scan_lines_Some in E as (_ & _ & Hl & _).
    destruct (line_matches_inv squares l Hl) as (s & Hs & -> & _).
    simpl. by destruct (String.eqb_spec s EmptyString).
  - split; [done|]. by intros [? ?].
Qed.

Lemma V1_handleClick_board xIsNext squares i :
  is_board squares → i < 9 →
  V1.handleClick xIsNext squares i = handleClick xIsNext squares i.
Proof.
  intros Hb Hi.
  destruct (handleClick xIsNext squares i) as [nextSquares|] eqn:E.
  - unfold handleClick in E. unfold V1.handleClick.
    destruct (truthy (get squares i)); [done|]. simpl in *.
    case_bool_decide as Hs; [|done]. simplify_eq/=.
    destruct (truthy (V1.winner squares)) eqn:Hw; [|done].
    apply V1_winner_truthy in Hw as [l Hl].
    rewrite calculateGameResult_V1, Hl in Hs. done.
  - apply V1_handleClick_ignored; [done..|].
    unfold handleClick in E.
    destruct (truthy (get squares i)); [by left|]. simpl in *.
    case_bool_decide; [done|by right].
Qed.

(** On a board, a click on one of its nine squares does the same in
    version 1 as in the later versions; so does a click in any reachable
    state of the game. *)
Theorem V1_play_agrees (s : GameState) (i : nat) :
  reachable s → i ∈ squareIndices →
  V1.play s i = play s i ∧
  ∀ xIsNext squares,
    is_board squares →
    V1.handleClick xIsNext squares i = handleClick xIsNext squares i.
Proof.
  intros Hr Hi%squareIndices_lt. split.
  - destruct (strong_invariant_current s (reachable_strong_invariant s Hr))
      as (squares & Hcur & Hb).
    unfold V1.play, play. rewrite Hcur.
    by rewrite V1_handleClick_board.
  - intros xIsNext squares Hb. by apply V1_handleClick_board.
Qed.

(** The status line of version 1 is that of the later versions when there
    is a winner, and names a next player in every other case: it never
    says that the game is a draw. *)
Theorem V1_status_never_draw (xIsNext : bool) (squares : array) :
  V1View.status xIsNext squares =
    match status (calculateGameResult squares) with
    | HasWinner => statusInfo xIsNext squares
    | _ => "Next player: " +:+ (if xIsNext then "X" else "O")
    end ∧
  V1View.status xIsNext squares ≠ "Draw".
Proof.
  assert (V1View.status xIsNext squares =
    match status (calculateGameResult squares) with
    | HasWinner => statusInfo xIsNext squares
    | _ => "Next player: " +:+ (if xIsNext then "X" else "O")
    end) as Heq.
  { unfold V1View.status, statusInfo.
    pose proof (V1_winner_truthy squares) as Hw. unfold V1.winner in *.
    rewrite calculateGameResult_V1.
    destruct (V1.calculateWinnerLine squares) as [l|]; simpl.
    - by rewrite (proj2 Hw) by eauto.
    - simpl. by destruct (every truthy squares). }
  split; [done|]. rewrite Heq. unfold statusInfo.
  destruct (status (calculateGameResult squares)); by destruct xIsNext.
Qed.

(** ** [handlePlay] from any state *)

Lemma slice_to_take {A} (h : list A) e :
  ∃ k, k ≤ length h ∧ slice_to h e = take k h.
Proof.
  unfold slice_to. cbv zeta.
  destruct (Z.ltb_spec e 0); (eexists; split; [|done]); lia.
Qed.

(** Whatever state [handlePlay] starts from, also one whose current move is
    not an index, the state it produces is sound: the history is a prefix
    of the old one followed by the new board, the new board is the current
    one, and the current move is the last index. From the latest move
    onwards nothing of the history is dropped; from move -1 everything
    is. *)
Theorem handlePlay_sound (s : GameState) (nextSquares : array) :
  (∃ k, k ≤ length (history s) ∧
        history (handlePlay s nextSquares) = take k (history s) ++ [nextSquares]) ∧
  currentSquares (handlePlay s nextSquares) = Some nextSquares ∧
  (0 ≤ currentMove (handlePlay s nextSquares)
     < Z.of_nat (length (history (handlePlay s nextSquares))))%Z ∧
  currentMove (handlePlay s nextSquares) =
    (Z.of_nat (length (history (handlePlay s nextSquares))) - 1)%Z ∧
  ((Z.of_nat (length (history s)) - 1 ≤ currentMove s)%Z →
   history (handlePlay s nextSquares) = history s ++ [nextSquares]) ∧
  (currentMove s = (-1)%Z →
   history (handlePlay s nextSquares) = [nextSquares]).
Proof.
  destruct (slice_to_take (history s) (currentMove s + 1)) as (k & Hk & Hslice).
  unfold handlePlay, currentSquares. simpl. rewrite Hslice.
  assert (length (take k (history s) ++ [nextSquares]) = k + 1) as Hlen.
  { rewrite length_app, length_take_le by done. done. }
  rewrite Hlen.
  split; [by exists k|]. split; [|split; [lia|]; split; [lia|]; split].
  - apply index_Some. split; [lia|].
    replace (Z.to_nat (Z.of_nat (k + 1) - 1)) with k by lia.
    rewrite lookup_app_r by (rewrite length_take_le; lia).
    rewrite length_take_le by lia. by replace (k - k) with 0 by lia.
  - intros Hlast. rewrite <- Hslice. unfold slice_to.
    destruct (Z.ltb_spec (currentMove s + 1) 0) as [?|_]; [lia|].
    by rewrite take_ge by lia.
  - intros Hneg. rewrite <- Hslice. unfold slice_to. cbv zeta.
    destruct (Z.ltb_spec (currentMove s + 1) 0) as [?|_]; [lia|].
    by replace (Z.to_nat _) with 0 by lia.
Qed.

(** ** Reachable states are the legal histories *)

Lemma squareIndices_elem i : i ∈ squareIndices ↔ i < 9.
Proof.
  unfold squareIndices, nRows, nCols. simpl.
  rewrite !elem_of_cons, elem_of_nil. lia.
Qed.

Lemma legal_length h : legal h → 1 ≤ length h.
Proof. destruct 1; [simpl; lia|]. rewrite length_app. simpl. lia. Qed.

Lemma legal_first h : legal h → h !! 0 = Some emptyBoard.
Proof.
  induction 1 as [|h squares i Hh IH Hlast Hi Hnull Hs]; [done|].
  by apply lookup_app_l_Some.
Qed.

Lemma legal_take h n : legal h → 0 < n ≤ length h → legal (take n h).
Proof.
  induction 1 as [|h squares i Hh IH Hlast Hi Hnull Hs]; intros Hn.
  - simpl in Hn. replace n with 1 by lia. apply legal_start.
  - rewrite length_app in Hn. simpl in Hn.
    destruct (decide (n ≤ length h)) as [Hle|Hgt].
    + rewrite take_app_le by done. apply IH. lia.
    + rewrite take_ge by (rewrite length_app; simpl; lia).
      by apply legal_move.
Qed.

(** An adjacent pair of a legal history: the earlier board was not
    finished, and the later one is the earlier one with an empty cell set
    to the mover's mark. *)
Lemma legal_step h k prev next :
  legal h → h !! k = Some prev → h !! (k + 1) = Some next →
  ∃ i, i < 9 ∧ get prev i = VNull ∧
       status (calculateGameResult prev) = NotFinished ∧
       next = <[i := Some (mover k)]> prev.
Proof.
  induction 1 as [|h squares i Hh IH Hlast Hi Hnull Hs]; intros Hprev Hnext.
  - by destruct k.
  - apply legal_length in Hh as Hlen.
    destruct (decide (k + 1 < length h)) as [Hlt|Hge].
    + rewrite lookup_app_l in Hprev, Hnext by lia. by apply IH.
    + apply lookup_lt_Some in Hnext as Hk.
      rewrite length_app in Hk. simpl in Hk.
      assert (k = length h - 1) as -> by lia.
      rewrite lookup_app_l in Hprev by lia.
      rewrite last_lookup in Hlast.
      replace (Init.Nat.pred (length h)) with (length h - 1) in Hlast by lia.
      rewrite lookup_app_r in Hnext by lia.
      replace (length h - 1 + 1 - length h) with 0 in Hnext by lia.
      simplify_eq/=. eauto 10.
Qed.

Lemma legal_boards h : legal h → Forall is_board h.
Proof.
  induction 1 as [|h squares i Hh IH Hlast Hi Hnull Hs].
  - apply Forall_singleton, emptyBoard_is_board.
  - apply Forall_app. split; [done|]. apply Forall_singleton.
    apply is_board_insert; [|apply mover_is_mark].
    rewrite Forall_lookup in IH. rewrite last_lookup in Hlast. eauto.
Qed.

Lemma play_cases_status s squares i :
  currentSquares s = Some squares → is_board squares → i < 9 →
  play s i = Returned s ∨
  (get squares i = VNull ∧
   status (calculateGameResult squares) = NotFinished ∧
   play s i =
     Returned
       {| history :=
            take (Z.to_nat (currentMove s) + 1) (history s)
            ++ [<[i := Some (mover (Z.to_nat (currentMove s)))]> squares];
          currentMove := currentMove s + 1;
          sortAscend := sortAscend s |}).
Proof.
  intros Hcur Hb Hi.
  destruct (truthy (get squares i)) eqn:Ht.
  { left. apply (play_unchanged s squares i Hcur). by left. }
  destruct (decide (status (calculateGameResult squares) = NotFinished)) as [Hs|Hs].
  2: { left. apply (play_unchanged s squares i Hcur). by right. }
  assert (get squares i = VNull) as Hnull.
  { destruct (board_get squares i Hb) as [H | [H | [H _]]]; [done| |lia].
    by rewrite (is_mark_truthy _ H) in Ht. }
  right. split; [done|]. split; [done|]. by apply play_accepted.
Qed.

Lemma reachable_legal s :
  reachable s →
  legal (history s) ∧ (0 ≤ currentMove s < Z.of_nat (length (history s)))%Z.
Proof.
  induction 1 as [|s i s' Hr [IH Hm] Hi Hplay|s m _ [IH _] Hm|s _ IH];
    [split; [apply legal_start|simpl; lia]| |done|done].
  apply squareIndices_lt in Hi.
  destruct (strong_invariant_current s (reachable_strong_invariant s Hr))
    as (squares & Hcur & Hb).
  destruct (play_cases_status s squares i Hcur Hb Hi)
    as [Hsame | (Hnull & Hs & Hacc)].
  { rewrite Hsame in Hplay. by simplify_eq. }
  rewrite Hacc in Hplay. simplify_eq. clear Hacc. simpl.
  apply index_Some in Hcur as [_ Hcur].
  set (k := Z.to_nat (currentMove s)) in *.
  assert (length (take (k + 1) (history s)) = k + 1) as Hlen
    by (rewrite length_take_le; lia).
  split.
  - replace k with (length (take (k + 1) (history s)) - 1) at 2 by lia.
    apply legal_move; [apply legal_take; [done|lia]| |done..].
    rewrite last_lookup, Hlen.
    replace (Init.Nat.pred (k + 1)) with k by lia.
    by rewrite lookup_take_lt by lia.
  - rewrite length_app, Hlen. simpl. lia.
Qed.

Lemma legal_reachable_latest h :
  legal h →
  reachable {| history := h;
               currentMove := Z.of_nat (length h) - 1;
               sortAscend := true |}.
Proof.
  induction 1 as [|h squares i Hh IH Hlast Hi Hnull Hs].
  - apply reachable_initial.
  - apply legal_length in Hh as Hlen.
    eapply (reachable_play _ i); [exact IH|by apply squareIndices_elem|].
    rewrite last_lookup in Hlast.
    rewrite (play_accepted _ squares i); [|apply index_Some; simpl|done..].
    + simpl. f_equal. f_equal.
      * replace (Z.to_nat (Z.of_nat (length h) - 1)) with (length h - 1) by lia.
        replace (length h - 1 + 1) with (length h) by lia.
        by rewrite take_ge by done.
      * rewrite length_app. simpl. lia.
    + split; [lia|].
      by replace (Z.to_nat (Z.of_nat (length h) - 1))
        with (Init.Nat.pred (length h)) by lia.
Qed.

(** The states the game can get into are exactly those whose history is a
    legal sequence of moves from the empty board and whose current move is
    an index of it, with either sort order. *)
Theorem reachable_iff_legal (s : GameState) :
  reachable s ↔
  legal (history s) ∧ (0 ≤ currentMove s < Z.of_nat (length (history s)))%Z.
Proof.
  split; [apply reachable_legal|].
  intros [Hlegal Hm]. destruct s as [h m b]. simpl in *.
  pose proof (reachable_jumpTo _ m (legal_reachable_latest h Hlegal) Hm) as Hr.
  destruct b; [exact Hr|]. exact (reachable_toggleSort _ Hr).
Qed.

(** ** What every board of a game looks like *)

Lemma get_insert_eq (a : array) i v : i < length a → get (<[i := Some v]> a) i = v.
Proof. intros H. unfold get. by rewrite list_lookup_insert_eq. Qed.

Lemma get_insert_ne (a : array) i j x : j ≠ i → get (<[i := x]> a) j = get a j.
Proof. intros H. unfold get. by rewrite list_lookup_insert_ne. Qed.

Lemma count_mark_cons m slot (squares : array) :
  count_mark m (slot :: squares) =
    (if decide (slot = Some m) then 1 else 0) + count_mark m squares.
Proof. unfold count_mark. rewrite filter_cons. by case_decide. Qed.

Lemma count_mark_insert m m' (squares : array) i :
  squares !! i = Some (Some VNull) → m ≠ VNull →
  count_mark m (<[i := Some m']> squares) =
    count_mark m squares + (if decide (m = m') then 1 else 0).
Proof.
  intros Hi Hm. revert i Hi.
  induction squares as [|slot squares IH]; intros [|i] Hi; simplify_eq/=.
  - rewrite !count_mark_cons. repeat case_decide; simplify_eq; lia.
  - rewrite !count_mark_cons, (IH i Hi). lia.
Qed.

Lemma count_mark_remove m (squares : array) i :
  squares !! i = Some (Some m) →
  count_mark m squares = S (count_mark m (<[i := None]> squares)).
Proof.
  revert i. induction squares as [|slot squares IH]; intros [|i] Hi; simplify_eq/=.
  - rewrite !count_mark_cons. repeat case_decide; simplify_eq; lia.
  - rewrite !count_mark_cons, (IH i Hi). lia.
Qed.

Lemma count_mark_line m (squares : array) a b c :
  a ≠ b → a ≠ c → b ≠ c →
  squares !! a = Some (Some m) → squares !! b = Some (Some m) →
  squares !! c = Some (Some m) →
  3 ≤ count_mark m squares.
Proof.
  intros Hab Hac Hbc Ha Hb Hc.
  rewrite (count_mark_remove m squares a Ha).
  rewrite (count_mark_remove m _ b) by by rewrite list_lookup_insert_ne.
  rewrite (count_mark_remove m _ c) by by rewrite !list_lookup_insert_ne.
  lia.
Qed.

Lemma count_marks_full (squares : array) :
  Forall (λ slot, slot = cX ∨ slot = cO) squares →
  count_mark (VStr "X") squares + count_mark (VStr "O") squares = length squares.
Proof.
  induction 1 as [|slot squares Hslot _ IH]; [done|].
  rewrite !count_mark_cons. simpl.
  destruct Hslot as [-> | ->]; unfold cX, cO; repeat case_decide; simplify_eq; lia.
Qed.

Lemma board_all_truthy_full (squares : array) :
  is_board squares → every truthy squares = true →
  Forall (λ slot, slot = cX ∨ slot = cO) squares.
Proof.
  intros [_ Hcells] Hev. rewrite every_true in Hev.
  rewrite Forall_lookup in Hcells. apply Forall_lookup. intros i slot Hi.
  destruct (Hcells i slot Hi) as [-> | [-> | ->]]; [|by left|by right].
  by specialize (Hev i VNull Hi).
Qed.

Lemma lines_distinct l :
  l ∈ lines → l.1.1 ≠ l.1.2 ∧ l.1.1 ≠ l.2 ∧ l.1.2 ≠ l.2.
Proof.
  unfold lines. rewrite !elem_of_cons, elem_of_nil.
  intros H; repeat destruct H as [->|H]; simpl; try lia; done.
Qed.

Lemma get_str_lookup (a : array) i s : get a i = VStr s → a !! i = Some (Some (VStr s)).
Proof. unfold get. by destruct (a !! i) as [[v|]|]; intros; simplify_eq. Qed.

(** The marks on the board at position [k] of a legal history. *)
Lemma legal_counts h k squares :
  legal h → h !! k = Some squares →
  count_mark (VStr "X") squares + count_mark (VStr "O") squares = k ∧
  count_mark (VStr "X") squares =
    count_mark (VStr "O") squares + (if Nat.even k then 0 else 1).
Proof.
  intros Hh. revert squares. induction k as [|k IH]; intros squares Hk.
  - rewrite (legal_first h Hh) in Hk. by simplify_eq.
  - destruct (lookup_lt_is_Some_2 h k) as [prev Hprev].
    { apply lookup_lt_Some in Hk. lia. }
    replace (S k) with (k + 1) in Hk by lia.
    destruct (legal_step h k prev squares Hh Hprev Hk)
      as (i & Hi & Hnull%get_null_lookup & _ & ->).
    destruct (IH prev Hprev) as [Hsum Hdiff].
    rewrite !(count_mark_insert _ _ prev i Hnull) by done.
    rewrite Nat.even_succ, <- Nat.negb_even. unfold mover.
    destruct (Nat.even k); simpl; repeat case_decide; simplify_eq; lia.
Qed.

Lemma count_marks_le (squares : array) :
  count_mark (VStr "X") squares + count_mark (VStr "O") squares ≤ length squares.
Proof.
  induction squares as [|slot squares IH]; [done|].
  rewrite !count_mark_cons. simpl. repeat case_decide; simplify_eq; lia.
Qed.

Lemma legal_length_le h : legal h → length h ≤ 10.
Proof.
  intros Hh. destruct (decide (length h ≤ 10)) as [|Hgt]; [done|].
  destruct (lookup_lt_is_Some_2 h 10) as [squares Hsq]; [lia|].
  destruct (legal_counts h 10 squares Hh Hsq) as [Hsum _].
  pose proof (count_marks_le squares) as Hle.
  pose proof (legal_boards h Hh) as Hb. rewrite Forall_lookup in Hb.
  destruct (Hb 10 squares Hsq) as [Hlen _]. lia.
Qed.

(** In a reachable state the board at position [k] of the history holds
    exactly [k] marks: as many X as O when [k] is even, one X more when it
    is odd. So the history never has more than ten entries. *)
Theorem reachable_mark_counts (s : GameState) :
  reachable s →
  length (history s) ≤ 10 ∧
  ∀ k squares,
    history s !! k = Some squares →
    is_board squares ∧
    count_mark (VStr "X") squares + count_mark (VStr "O") squares = k ∧
    count_mark (VStr "X") squares =
      count_mark (VStr "O") squares + (if Nat.even k then 0 else 1).
Proof.
  intros [Hh _]%reachable_legal. split; [by apply legal_length_le|].
  intros k squares Hk. split; [|by eapply legal_counts].
  pose proof (legal_boards _ Hh) as Hb. rewrite Forall_lookup in Hb. eauto.
Qed.

Lemma legal_persist h j d a b c :
  legal h → h !! j = Some a → h !! (j + d) = Some b →
  is_mark (get a c) → get b c = get a c.
Proof.
  intros Hh Ha. revert b. induction d as [|d IH]; intros b Hb Hm.
  - replace (j + 0) with j in Hb by lia. by simplify_eq.
  - destruct (lookup_lt_is_Some_2 h (j + d)) as [b0 Hb0].
    { apply lookup_lt_Some in Hb. lia. }
    replace (j + S d) with (j + d + 1) in Hb by lia.
    destruct (legal_step h (j + d) b0 b Hh Hb0 Hb) as (i & _ & Hnull & _ & ->).
    rewrite <- (IH b0 Hb0 Hm). apply get_insert_ne. intros ->.
    rewrite (IH b0 Hb0 Hm) in Hnull. by apply is_mark_not_null in Hm.
Qed.

(** Along the history of a reachable state a mark, once placed, stays where
    it is and what it is on every later board. *)
Theorem reachable_marks_persist (s : GameState) (j k : nat) (a b : array) :
  reachable s → j ≤ k →
  history s !! j = Some a → history s !! k = Some b →
  ∀ c, is_mark (get a c) → get b c = get a c.
Proof.
  intros [Hh _]%reachable_legal Hjk Ha Hb c.
  replace k with (j + (k - j)) in Hb by lia. by eapply legal_persist.
Qed.

(** ** When a game is over *)

Lemma line_matches_intro squares l s :
  s ≠ EmptyString →
  get squares (l.1.1) = VStr s → get squares (l.1.2) = VStr s →
  get squares (l.2) = VStr s →
  line_matches squares l = true.
Proof.
  destruct l as [[a b] c]. simpl. intros Hs Ha Hb Hc.
  unfold line_matches. rewrite Ha, Hb, Hc. simpl.
  destruct (String.eqb_spec s EmptyString); [done|].
  unfold strict_eq. by rewrite bool_decide_eq_true_2.
Qed.

Lemma line_matches_HasWinner squares l :
  l ∈ lines → line_matches squares l = true →
  status (calculateGameResult squares) = HasWinner.
Proof.
  intros Hl Hm. rewrite calculateGameResult_V1.
  destruct (V1.calculateWinnerLine squares) eqn:E; [done|].
  unfold V1.calculateWinnerLine in E. rewrite V1_scan_lines_None in E.
  by rewrite (E l Hl) in Hm.
Qed.

Lemma winner_line squares m :
  winner (calculateGameResult squares) = Some m →
  ∃ l s, l ∈ lines ∧ s ≠ EmptyString ∧ m = VStr s ∧
         get squares (l.1.1) = VStr s ∧ get squares (l.1.2) = VStr s ∧
         get squares (l.2) = VStr s.
Proof.
  rewrite calculateGameResult_V1.
  destruct (V1.calculateWinnerLine squares) as [l|] eqn:E; [|done].
  simpl. intros [= <-].
  apply V1_scan_lines_Some in E as (i & Hi%list_elem_of_lookup_2 & Hl & _).
  destruct (line_matches_inv squares l Hl) as (s & Hs & Ha & Hb & Hc).
  exists l, s. by rewrite Ha.
Qed.

(** A winner first appears on the board of the player who has just moved. *)
Lemma legal_winner h k squares m :
  legal h → h !! k = Some squares →
  winner (calculateGameResult squares) = Some m →
  0 < k ∧ m = mover (k - 1).
Proof.
  intros Hh Hk Hw. destruct k as [|k].
  { rewrite (legal_first h Hh) in Hk. by simplify_eq. }
  split; [lia|]. replace (S k - 1) with k by lia.
  destruct (lookup_lt_is_Some_2 h k) as [prev Hprev].
  { apply lookup_lt_Some in Hk. lia. }
  replace (S k) with (k + 1) in Hk by lia.
  destruct (legal_step h k prev squares Hh Hprev Hk)
    as (i & Hi & Hnull & Hs & ->).
  destruct (winner_line _ m Hw) as (l & s & Hl & Hne & -> & Ha & Hb & Hc).
  assert (i < length prev) as Hlt
    by (eapply lookup_lt_Some, get_null_lookup; done).
  destruct (decide (i = l.1.1)) as [->|Hia];
    [by rewrite get_insert_eq in Ha|].
  destruct (decide (i = l.1.2)) as [->|Hib];
    [by rewrite get_insert_eq in Hb|].
  destruct (decide (i = l.2)) as [->|Hic];
    [by rewrite get_insert_eq in Hc|].
  rewrite get_insert_ne in Ha, Hb, Hc by done.
  rewrite (line_matches_HasWinner prev l Hl) in Hs; [done|].
  by apply (line_matches_intro prev l s).
Qed.

Lemma legal_winner_late h k squares m :
  legal h → h !! k = Some squares →
  winner (calculateGameResult squares) = Some m → 5 ≤ k.
Proof.
  intros Hh Hk Hw.
  destruct (legal_winner h k squares m Hh Hk Hw) as [_ Hm].
  destruct (winner_line _ m Hw)
    as (l & s & Hl & _ & -> & Ha%get_str_lookup & Hb%get_str_lookup
          & Hc%get_str_lookup).
  destruct (lines_distinct l Hl) as (Hab & Hac & Hbc).
  pose proof (count_mark_line (VStr s) squares _ _ _ Hab Hac Hbc Ha Hb Hc).
  destruct (legal_counts h k squares Hh Hk) as [Hsum Hdiff].
  unfold mover in Hm.
  destruct (Nat.even (k - 1)), (Nat.even k); simplify_eq; lia.
Qed.

Lemma legal_draw h k squares :
  legal h → h !! k = Some squares →
  status (calculateGameResult squares) = Draw → k = 9.
Proof.
  intros Hh Hk Hs.
  pose proof (legal_boards h Hh) as Hb. rewrite Forall_lookup in Hb.
  specialize (Hb k squares Hk).
  rewrite calculateGameResult_V1 in Hs.
  destruct (V1.calculateWinnerLine squares); [done|]. simpl in Hs.
  destruct (every truthy squares) eqn:Hev; [|done].
  pose proof (count_marks_full squares (board_all_truthy_full squares Hb Hev)).
  destruct (legal_counts h k squares Hh Hk) as [Hsum _].
  destruct Hb as [Hlen _]. lia.
Qed.

(** In a reachable state only the last board of the history can be won or
    drawn: every board that has a successor is not finished. *)
Theorem reachable_finished_is_last (s : GameState) (k : nat) (squares : array) :
  reachable s → history s !! k = Some squares →
  (k + 1 < length (history s) →
   status (calculateGameResult squares) = NotFinished ∧
   winner (calculateGameResult squares) = None) ∧
  (status (calculateGameResult squares) ≠ NotFinished →
   k + 1 = length (history s)).
Proof.
  intros [Hh _]%reachable_legal Hk.
  assert (k + 1 < length (history s) →
          status (calculateGameResult squares) = NotFinished) as Hnot.
  { intros Hlt. destruct (lookup_lt_is_Some_2 (history s) (k + 1)) as [next Hnext];
      [done|].
    by destruct (legal_step _ k squares next Hh Hk Hnext) as (_ & _ & _ & ? & _). }
  split.
  - intros Hlt. split; [by apply Hnot|].
    specialize (Hnot Hlt). rewrite calculateGameResult_V1 in Hnot |- *.
    by destruct (V1.calculateWinnerLine squares).
  - intros Hfin. apply lookup_lt_Some in Hk.
    destruct (decide (k + 1 < length (history s))) as [Hlt|]; [|lia].
    by destruct Hfin, Hnot.
Qed.

(** In a reachable state, a board with a winner is at position 5 or later
    and the winner is the player who made the last move on it; a drawn
    board is at position 9. *)
Theorem reachable_winner_moved_last (s : GameState) (k : nat) (squares : array) :
  reachable s → history s !! k = Some squares →
  (∀ m, winner (calculateGameResult squares) = Some m →
        5 ≤ k ∧ m = mover (k - 1)) ∧
  (status (calculateGameResult squares) = Draw → k = 9).
Proof.
  intros [Hh _]%reachable_legal Hk. split.
  - intros m Hm. split; [by eapply legal_winner_late|].
    by eapply legal_winner.
  - by eapply legal_draw.
Qed.

(** ** The move locations of a game *)

Lemma collect_lookup {A} (l : list (outcome A)) r :
  collect l = Returned r →
  length r = length l ∧ ∀ j, l !! j = Returned <$> (r !! j).
Proof.
  revert r. induction l as [|[a|e] l IH]; intros r Hr; simplify_eq/=.
  - split; [done|]. by intros j.
  - destruct (collect l) as [r'|] eqn:E; simplify_eq/=.
    destruct (IH r' eq_refl) as [Hlen Hlook].
    split; [by rewrite Hlen|]. intros [|j]; [done|]. apply Hlook.
Qed.

Lemma first_difference_insert (prev : array) i m :
  prev !! i = Some (Some VNull) → m ≠ VNull →
  first_difference (<[i := Some m]> prev) prev = Some i.
Proof.
  intros Hi Hm. apply lookup_lt_Some in Hi as Hlt.
  apply first_difference_Some. split.
  - split; [by rewrite length_insert|].
    rewrite get_insert_eq by done. by rewrite (get_lookup _ _ _ Hi).
  - intros j Hj [_ Hd]. apply Hd, get_insert_ne. lia.
Qed.

Lemma location_round_trip i :
  i < 9 → i / 3 < 3 ∧ i mod 3 < 3 ∧ i / 3 * nCols + i mod 3 = i.
Proof.
  intros Hi. unfold nCols.
  pose proof (Nat.div_mod i 3).
  pose proof (Nat.mod_upper_bound i 3).
  assert (i / 3 < 3) by (apply Nat.Div0.div_lt_upper_bound; lia).
  lia.
Qed.

(** In a reachable state [moveLocations] throws nothing. It gives [null]
    for the first entry of the history and, for every later entry, the row
    and column of the cell that was played there; the board's own index
    [row * nCols + col] of that pair is the played cell again. *)
Theorem reachable_moveLocations_played (s : GameState) :
  reachable s →
  ∃ locations,
    moveLocations (history s) = Returned locations ∧
    length locations = length (history s) ∧
    locations !! 0 = Some None ∧
    ∀ k prev next,
      history s !! k = Some prev → history s !! (k + 1) = Some next →
      ∃ i, get prev i = VNull ∧ get next i = mover k ∧
           locations !! (k + 1) = Some (Some (i / 3, i mod 3)) ∧
           i / 3 < 3 ∧ i mod 3 < 3 ∧ i / 3 * nCols + i mod 3 = i.
Proof.
  intros Hr. destruct (reachable_moveLocations s Hr) as [locations Hloc].
  apply reachable_legal in Hr as [Hh _].
  exists locations. split; [done|]. unfold moveLocations in Hloc.
  apply collect_lookup in Hloc as [Hlen Hlook].
  rewrite length_imap in Hlen. split; [done|]. split.
  - specialize (Hlook 0). rewrite list_lookup_imap, (legal_first _ Hh) in Hlook.
    simpl in Hlook. unfold moveLocation in Hlook. simpl in Hlook.
    destruct (locations !! 0); by simplify_eq/=.
  - intros k prev next Hprev Hnext.
    destruct (legal_step _ k prev next Hh Hprev Hnext)
      as (i & Hi & Hnull & _ & ->).
    apply get_null_lookup in Hnull as Hslot. apply lookup_lt_Some in Hslot as Hlt.
    exists i. split; [done|]. split; [by apply get_insert_eq|].
    split; [|by apply location_round_trip].
    specialize (Hlook (k + 1)). rewrite list_lookup_imap, Hnext in Hlook.
    simpl in Hlook. unfold moveLocation in Hlook.
    rewrite decide_False in Hlook by lia.
    replace (k + 1 - 1) with k in Hlook by lia. rewrite Hprev in Hlook.
    rewrite first_difference_insert in Hlook;
      [|done|apply is_mark_not_null, mover_is_mark].
    destruct (locations !! (k + 1)); by simplify_eq/=.
Qed.

(** ** What the game renders *)

Lemma render_Returned s v :
  render s = Returned v →
  ∃ locations squares,
    moveLocations (history s) = Returned locations ∧
    currentSquares s = Some squares ∧
    v = {| view_statusInfo := statusInfo (xIsNext s) squares;
           view_rows := board_rows squares;
           view_sortLabel :=
             if sortAscend s then "Sort Descend" else "Sort Ascend";
           view_moves := moves s locations |}.
Proof.
  unfold render. destruct (moveLocations (history s)) as [locations|]; [|done].
  destruct (currentSquares s) as [squares|]; [|done].
  intros [= <-]. by exists locations, squares.
Qed.

(** A reachable state always renders. After a jump from it to a number
    that is not an index of the history, rendering and every click throw a
    [TypeError]: the board gets [undefined] for its squares. *)
Theorem render_reachable (s : GameState) :
  reachable s →
  (∃ v, render s = Returned v) ∧
  ∀ m, (m < 0 ∨ Z.of_nat (length (history s)) ≤ m)%Z →
       render (jumpTo s m) = Thrown TypeError ∧
       ∀ i, play (jumpTo s m) i = Thrown TypeError.
Proof.
  intros Hr. destruct (reachable_moveLocations s Hr) as [locations Hloc].
  destruct (strong_invariant_current s (reachable_strong_invariant s Hr))
    as (squares & Hcur & _).
  split.
  - unfold render. rewrite Hloc, Hcur. by eexists.
  - intros m Hm.
    assert (currentSquares (jumpTo s m) = None) as Hnone by by apply index_None.
    unfold render, play. simpl. by rewrite Hloc, Hnone.
Qed.

(** ** The move list *)

Lemma moves_unsorted s locations :
  imap (λ move _, moveItem s locations move) (history s) =
  moveItem s locations <$> seq 0 (length (history s)).
Proof. apply imap_seq_0. Qed.

Lemma moveItem_key s locations move :
  move_key (moveItem s locations move) = move.
Proof. unfold moveItem. by case_decide. Qed.

Lemma moves_elem s locations item :
  item ∈ moves s locations ↔
  ∃ move, move < length (history s) ∧ item = moveItem s locations move.
Proof.
  unfold moves. rewrite moves_unsorted.
  assert (item ∈ moveItem s locations <$> seq 0 (length (history s)) ↔
          ∃ move, move < length (history s) ∧ item = moveItem s locations move)
    as Hplain.
  { rewrite list_elem_of_fmap. split.
    - intros (move & -> & Hin%elem_of_seq). exists move. split; [lia|done].
    - intros (move & Hlt & ->). exists move. split; [done|].
      apply elem_of_seq. lia. }
  destruct (sortAscend s); [done|]. by rewrite elem_of_reverse.
Qed.

(** The move list has one item per entry of the history, in the order of
    the moves or, sorted descending, in the opposite order. The item of the
    current move has no click handler; every other item jumps to its own
    move, which is an index of the history and not the current move. *)
Theorem moves_buttons (s : GameState) (locations : list (option (nat * nat))) :
  length (moves s locations) = length (history s) ∧
  move_key <$> moves s locations =
    (if sortAscend s then seq 0 (length (history s))
     else reverse (seq 0 (length (history s)))) ∧
  ∀ item,
    item ∈ moves s locations →
    move_key item < length (history s) ∧
    (move_onClick item = None ↔ currentMove s = Z.of_nat (move_key item)) ∧
    (∀ m, move_onClick item = Some m →
          m = Z.of_nat (move_key item) ∧
          (0 ≤ m < Z.of_nat (length (history s)))%Z ∧
          m ≠ currentMove s).
Proof.
  split; [|split].
  - unfold moves. destruct (sortAscend s);
      by rewrite ?length_reverse, length_imap.
  - unfold moves. rewrite moves_unsorted.
    assert (move_key <$> (moveItem s locations <$> seq 0 (length (history s)))
            = seq 0 (length (history s))) as Hkeys.
    { rewrite <- list_fmap_compose. rewrite <- (list_fmap_id (seq _ _)) at 2.
      apply list_fmap_ext. intros _ move _. apply moveItem_key. }
    destruct (sortAscend s); [done|]. by rewrite fmap_reverse, Hkeys.
  - intros item (move & Hlt & ->)%moves_elem. unfold moveItem.
    case_decide as Hcur; simpl.
    + split; [done|]. split; [done|]. by intros m.
    + split; [done|]. split; [by split|]. intros m [= <-].
      split; [done|]. split; [lia|]. congruence.
Qed.

(** Changing the sort order twice gives the state back; it reverses the
    move list and has no effect on what a click or a jump does. *)
Theorem toggleSort_only_reverses (s : GameState) :
  toggleSort (toggleSort s) = s ∧
  (∀ locations,
     moves (toggleSort s) locations = reverse (moves s locations)) ∧
  (∀ i, play (toggleSort s) i =
        match play s i with
        | Returned s' => Returned (toggleSort s')
        | Thrown e => Thrown e
        end) ∧
  (∀ m, jumpTo (toggleSort s) m = toggleSort (jumpTo s m)) ∧
  currentSquares (toggleSort s) = currentSquares s.
Proof.
  split; [|split; [|split; [|done]]].
  - destruct s as [h m b]. unfold toggleSort. simpl. by rewrite negb_involutive.
  - intros locations. unfold moves. simpl.
    assert (imap (λ move _, moveItem (toggleSort s) locations move) (history s)
            = imap (λ move _, moveItem s locations move) (history s)) as ->
      by done.
    destruct (sortAscend s); simpl; [done|]. by rewrite reverse_involutive.
  - intros i. unfold play.
    change (currentSquares (toggleSort s)) with (currentSquares s).
    change (xIsNext (toggleSort s)) with (xIsNext s).
    destruct (currentSquares s) as [squares|]; [|done].
    by destruct (handleClick (xIsNext s) squares i).
Qed.

(** ** Everything on the screen leads to a reachable state *)

Lemma board_rows_keys squares row p :
  row ∈ board_rows squares → p ∈ row →
  square_key p ∈ squareIndices ∧
  square_value p = get squares (square_key p) ∧
  square_highlight p = highlight squares (square_key p).
Proof.
  unfold board_rows, nRows, nCols. simpl.
  rewrite !elem_of_cons, elem_of_nil.
  intros [-> | [-> | [-> | []]]];
    rewrite !elem_of_cons, elem_of_nil;
    intros [-> | [-> | [-> | []]]]; simpl;
    (split; [apply squareIndices_elem; lia|done]).
Qed.

(** From a reachable state, the handlers that the rendered game offers —
    a click on any square of the board, a jump from any item of the move
    list, the sort button — all return a reachable state. *)
Theorem rendered_handlers_reachable (s : GameState) (v : GameView) :
  reachable s → render s = Returned v →
  (∀ row p, row ∈ view_rows v → p ∈ row →
            ∃ s', play s (square_key p) = Returned s' ∧ reachable s') ∧
  (∀ item m, item ∈ view_moves v → move_onClick item = Some m →
             reachable (jumpTo s m)) ∧
  reachable (toggleSort s).
Proof.
  intros Hr (locations & squares & _ & _ & ->)%render_Returned. simpl.
  split; [|split; [|by apply reachable_toggleSort]].
  - intros row p Hrow Hp.
    destruct (board_rows_keys squares row p Hrow Hp) as [Hkey _].
    destruct (reachable_play_returns s (square_key p) Hr) as [s' Hs'].
    exists s'. split; [done|]. by eapply reachable_play.
  - intros item m (move & Hlt & ->)%moves_elem. unfold moveItem.
    case_decide; simpl; [done|]. intros [= <-].
    apply reachable_jumpTo; [done|lia].
Qed.

(** ** The board on the screen *)

Lemma winnerLine_inv squares l :
  winnerLine (calculateGameResult squares) = Some l →
  l ∈ lines ∧ line_matches squares l = true ∧
  winner (calculateGameResult squares) = Some (get squares (l.1.1)).
Proof.
  rewrite calculateGameResult_V1.
  destruct (V1.calculateWinnerLine squares) as [l'|] eqn:E; [|done].
  simpl. intros [= ->].
  apply V1_scan_lines_Some in E as (i & Hi%list_elem_of_lookup_2 & Hl & _).
  done.
Qed.

(** With a winner the board highlights the three squares of the reported
    line and no other, and each of them shows the winner's mark; without a
    winner nothing is highlighted. *)
Theorem highlight_winning_line (squares : array) :
  (∀ l, winnerLine (calculateGameResult squares) = Some l →
        (∀ i, highlight squares i = true ↔ i = l.1.1 ∨ i = l.1.2 ∨ i = l.2) ∧
        (∀ i, highlight squares i = true →
              winner (calculateGameResult squares) = Some (get squares i)) ∧
        length (filter (λ p, square_highlight p = true)
                       (concat (board_rows squares))) = 3) ∧
  (winnerLine (calculateGameResult squares) = None →
   ∀ i, highlight squares i = false ∧
        filter (λ p, square_highlight p = true) (concat (board_rows squares)) = []).
Proof.
  split.
  - intros l Hl. destruct (winnerLine_inv squares l Hl) as (Hin & Hm & Hw).
    assert (∀ i, highlight squares i = true ↔ i = l.1.1 ∨ i = l.1.2 ∨ i = l.2)
      as Hhigh.
    { intros i. unfold highlight. rewrite Hl. destruct l as [[a b] c]. simpl.
      rewrite bool_decide_eq_true, !elem_of_cons, elem_of_nil. tauto. }
    split; [done|]. split.
    + intros i Hi%Hhigh. rewrite Hw.
      destruct (line_matches_inv squares l Hm) as (s & _ & Ha & Hb & Hc).
      destruct Hi as [-> | [-> | ->]]; congruence.
    + unfold board_rows, highlight. rewrite Hl. clear Hl Hm Hw Hhigh.
      unfold lines in Hin. rewrite !elem_of_cons, elem_of_nil in Hin.
      repeat destruct Hin as [->|Hin]; try done; by vm_compute.
  - intros Hnone i. unfold board_rows, highlight. rewrite Hnone. done.
Qed.

Lemma handlePlay_current s nextSquares :
  currentSquares (handlePlay s nextSquares) = Some nextSquares.
Proof.
  destruct (slice_to_take (history s) (currentMove s + 1)) as (k & Hk & Hslice).
  unfold handlePlay, currentSquares. simpl. rewrite Hslice.
  rewrite length_app, length_take_le by done. simpl.
  apply index_Some. split; [lia|].
  replace (Z.to_nat (Z.of_nat (k + 1) - 1)) with k by lia.
  rewrite lookup_app_r by (rewrite length_take_le; lia).
  rewrite length_take_le by lia. by replace (k - k) with 0 by lia.
Qed.

(** The status line says [Next player: p] exactly while the game is not
    finished; a click on an empty cell then puts [p] there and nothing
    else changes on the board. When the status line says anything else,
    a click does nothing. *)
Theorem statusInfo_next_player (s : GameState) (squares : array) :
  currentSquares s = Some squares →
  (status (calculateGameResult squares) = NotFinished ↔
   ∃ p, statusInfo (xIsNext s) squares = "Next player: " +:+ p) ∧
  (∀ p i,
     statusInfo (xIsNext s) squares = "Next player: " +:+ p →
     get squares i = VNull →
     ∃ s' nextSquares,
       play s i = Returned s' ∧ currentSquares s' = Some nextSquares ∧
       get nextSquares i = VStr p ∧
       ∀ j, j ≠ i → get nextSquares j = get squares j) ∧
  (∀ i, (∀ p, statusInfo (xIsNext s) squares ≠ "Next player: " +:+ p) →
        play s i = Returned s).
Proof.
  intros Hcur.
  assert (∀ p, statusInfo (xIsNext s) squares = "Next player: " +:+ p →
               status (calculateGameResult squares) = NotFinished ∧
               p = if xIsNext s then "X" else "O") as Hinv.
  { intros p. unfold statusInfo.
    destruct (status (calculateGameResult squares)); simpl; [done..|].
    intros H. injection H as H. cbv [String.append] in H. by subst. }
  split; [|split].
  - split; [|by intros [p [? _]%Hinv]].
    intros Hs. unfold statusInfo. rewrite Hs. by eexists.
  - intros p i [Hs ->]%Hinv Hnull.
    eexists _, _. unfold play. rewrite Hcur.
    rewrite handleClick_accepted by (done || by rewrite Hnull).
    split; [done|]. split; [apply handlePlay_current|].
    split; [apply get_set_eq|]. intros j Hj. by apply get_set_ne.
  - intros i Hnot. apply (play_unchanged s squares i Hcur). right.
    intros Hs. apply (Hnot (if xIsNext s then "X" else "O")).
    unfold statusInfo. by rewrite Hs.
Qed.

(** ** The move lists of the versions *)

Lemma V1View_moves_unsorted s :
  imap (λ move _, V1View.moveItem s move) (history s) =
  V1View.moveItem s <$> seq 0 (length (history s)).
Proof. apply imap_seq_0. Qed.

(** The move list of version 3 is that of versions 1 and 2 with the
    location suffix appended to each text: the items, their order, their
    keys and their click handlers are the same. *)
Theorem moves_add_location_suffix
    (s : GameState) (locations : list (option (nat * nat))) :
  moves s locations =
    (λ item,
       {| move_key := move_key item;
          move_text :=
            move_text item
            +:+ moveLocationSuffix (mjoin (locations !! move_key item));
          move_onClick := move_onClick item |}) <$> V1View.moves s.
Proof.
  unfold moves, V1View.moves. rewrite moves_unsorted, V1View_moves_unsorted.
  assert (∀ l : list nat,
    moveItem s locations <$> l =
    (λ item,
       {| move_key := move_key item;
          move_text :=
            move_text item
            +:+ moveLocationSuffix (mjoin (locations !! move_key item));
          move_onClick := move_onClick item |}) <$> (V1View.moveItem s <$> l))
    as Heq.
  { intros l. rewrite <- list_fmap_compose. apply list_fmap_ext.
    intros _ move _. unfold moveItem, V1View.moveItem. simpl.
    by case_decide. }
  destruct (sortAscend s); [apply Heq|].
  by rewrite Heq, fmap_reverse.
Qed.

(** ** The further properties at concrete states *)

Lemma clicks_reachable s indices s' :
  reachable s → Forall (λ i, i ∈ squareIndices) indices →
  clicks s indices = Returned s' → reachable s'.
Proof.
  intros Hr Hall. revert s Hr.
  induction Hall as [|i indices Hi _ IH]; intros s Hr; simpl.
  - by intros [= <-].
  - destruct (play s i) as [s1|] eqn:E; [|done].
    apply IH. by eapply reachable_play.
Qed.

Lemma squareIndices_Forall indices :
  forallb (λ i, i <? 9) indices = true → Forall (λ i, i ∈ squareIndices) indices.
Proof.
  rewrite forallb_forall, Forall_forall. intros H i Hi%list_elem_of_In.
  apply squareIndices_elem, Nat.ltb_lt, H. done.
Qed.

Lemma state_after_two_reachable : reachable state_after_two.
Proof.
  apply (clicks_reachable initialState [0; 4]);
    [apply reachable_initial|by apply squareIndices_Forall|done].
Qed.

Lemma V1_play_agrees_witness :
  reachable state_after_two ∧ 3 ∈ squareIndices ∧
  V1.play state_after_two 3 = play state_after_two 3.
Proof.
  assert (3 ∈ squareIndices) as Hi by by_decision (3 ∈ squareIndices).
  split; [apply state_after_two_reachable|]. split; [done|].
  exact (proj1 (V1_play_agrees state_after_two 3 state_after_two_reachable Hi)).
Defined.

Lemma reachable_mark_counts_witness :
  reachable state_after_two ∧
  length (history state_after_two) ≤ 10 ∧
  count_mark (VStr "X") [cX; c_; c_; c_; cO; c_; c_; c_; c_] +
  count_mark (VStr "O") [cX; c_; c_; c_; cO; c_; c_; c_; c_] = 2.
Proof.
  split; [apply state_after_two_reachable|].
  destruct (reachable_mark_counts state_after_two state_after_two_reachable)
    as [Hlen Hcount].
  split; [done|].
  by destruct (Hcount 2 [cX; c_; c_; c_; cO; c_; c_; c_; c_] eq_refl)
    as (_ & Hsum & _).
Defined.

Lemma reachable_marks_persist_witness :
  reachable state_after_two ∧
  get [cX; c_; c_; c_; cO; c_; c_; c_; c_] 0 =
  get [cX; c_; c_; c_; c_; c_; c_; c_; c_] 0.
Proof.
  split; [apply state_after_two_reachable|].
  apply (reachable_marks_persist state_after_two 1 2);
    [apply state_after_two_reachable|lia|done|done|by left].
Defined.

Lemma reachable_finished_is_last_witness :
  reachable state_after_two ∧
  status (calculateGameResult [cX; c_; c_; c_; c_; c_; c_; c_; c_]) = NotFinished.
Proof.
  split; [apply state_after_two_reachable|].
  destruct (reachable_finished_is_last state_after_two 1
              [cX; c_; c_; c_; c_; c_; c_; c_; c_]
              state_after_two_reachable eq_refl) as [Hmid _].
  apply Hmid. simpl. lia.
Defined.

Lemma reachable_winner_moved_last_witness :
  ∃ s, clicks initialState [0; 4; 1; 7; 2] = Returned s ∧ reachable s ∧
       history s !! 5 = Some [cX; cX; cX; c_; cO; c_; c_; cO; c_] ∧
       VStr "X" = mover (5 - 1).
Proof.
  eexists. split; [reflexivity|].
  match goal with |- reachable ?s ∧ _ => assert (reachable s) as Hr end.
  { apply (clicks_reachable initialState [0; 4; 1; 7; 2]);
      [apply reachable_initial|by apply squareIndices_Forall|done]. }
  split; [done|]. split; [done|].
  destruct (reachable_winner_moved_last _ 5
              [cX; cX; cX; c_; cO; c_; c_; cO; c_] Hr eq_refl) as [Hwin _].
  by destruct (Hwin (VStr "X") eq_refl).
Defined.

Lemma reachable_moveLocations_played_witness :
  reachable state_after_two ∧
  ∃ locations,
    moveLocations (history state_after_two) = Returned locations ∧
    locations !! 0 = Some None.
Proof.
  split; [apply state_after_two_reachable|].
  destruct (reachable_moveLocations_played state_after_two
              state_after_two_reachable) as (locations & Hloc & _ & H0 & _).
  by exists locations.
Defined.

Lemma render_reachable_witness :
  reachable state_after_two ∧
  (∃ v, render state_after_two = Returned v) ∧
  render (jumpTo state_after_two 5) = Thrown TypeError.
Proof.
  split; [apply state_after_two_reachable|].
  destruct (render_reachable state_after_two state_after_two_reachable)
    as [Hv Hout].
  split; [done|]. apply (Hout 5%Z). right. by vm_compute.
Defined.

Lemma rendered_handlers_reachable_witness :
  reachable state_after_two ∧
  ∃ v, render state_after_two = Returned v ∧
       reachable (jumpTo state_after_two 0).
Proof.
  split; [apply state_after_two_reachable|].
  destruct (render state_after_two) as [v|e] eqn:E; [|by vm_compute in E].
  exists v. split; [done|].
  destruct (rendered_handlers_reachable state_after_two v
              state_after_two_reachable E) as (_ & Hjump & _).
  apply render_Returned in E as (locations & squares & _ & _ & ->).
  apply (Hjump (moveItem state_after_two locations 0)); [|done].
  apply moves_elem. exists 0. split; [simpl; lia|done].
Defined.

Lemma statusInfo_next_player_witness :
  currentSquares state_after_two = Some [cX; c_; c_; c_; cO; c_; c_; c_; c_] ∧
  statusInfo (xIsNext state_after_two) [cX; c_; c_; c_; cO; c_; c_; c_; c_]
    = "Next player: X" ∧
  ∃ s' nextSquares,
    play state_after_two 8 = Returned s' ∧
    currentSquares s' = Some nextSquares ∧
    get nextSquares 8 = VStr "X".
Proof.
  split; [reflexivity|]. split; [reflexivity|].
  destruct (statusInfo_next_player state_after_two
              [cX; c_; c_; c_; cO; c_; c_; c_; c_] eq_refl)
    as (_ & Hnext & _).
  destruct (Hnext "X"%string 8 eq_refl eq_refl)
    as (s' & nextSquares & Hplay & Hcur & Hget & _).
  by exists s', nextSquares.
Defined.
